(** * TorPool: the pool manager of tor-router

    A shallow embedding of [src/default_config.js] (the [Array.prototype.rotate]
    patch and the [TorPool] class) and the properties of its pool, load
    balancing, group views and configuration merge.

    JavaScript objects that the pool shares with its callers (instance
    definitions, configuration objects) live in an explicit heap and are
    addressed by location, so that in-place writes are visible through every
    alias.  What the outside world decides (random draws, the id generator,
    the behaviour of an Instance Handle) is an argument of the call it
    bears on.  An asynchronous method is one step from call to settlement,
    the pool relying on its callers to make pool-level calls one after the
    other; [create_instance] is also given in its two halves, before and
    after the point where it waits for the handle to start. *)

From stdpp Require Import gmap strings list sorting pretty.
From Stdlib Require Import ZArith Permutation.

Open Scope Z_scope.
Local Set Warnings "-register-all".

(** ** JavaScript numbers, as far as [rotate] and [splice] need them *)

Module JS.

(** Integer-valued numbers and NaN. *)
Inductive number :=
| NaN
| Int (z : Z).

(** [x >> 0]: ToInt32. *)
Definition to_int32 (z : Z) : Z :=
  let m := z mod 2 ^ 32 in
  if decide (2 ^ 31 ≤ m) then m - 2 ^ 32 else m.

(** [x >>> 0]: ToUint32. *)
Definition to_uint32 (z : Z) : Z := z mod 2 ^ 32.

(** [a % b]: the remainder takes the sign of the dividend; NaN when the
    divisor is zero. *)
Definition rem (a b : number) : number :=
  match a, b with
  | Int x, Int y => if decide (y = 0) then NaN else Int (Z.rem x y)
  | _, _ => NaN
  end.

Definition add (a b : number) : number :=
  match a, b with
  | Int x, Int y => Int (x + y)
  | _, _ => NaN
  end.

(** ToIntegerOrInfinity, applied by [splice] to its arguments. *)
Definition to_integer (n : number) : Z :=
  match n with
  | NaN => 0
  | Int z => z
  end.

(** [arr.splice(start, deleteCount)]: the removed elements and what is left
    of the array.  A negative [start] counts from the end. *)
Definition splice {A} (start deleteCount : number) (arr : list A)
  : list A * list A :=
  let len := Z.of_nat (length arr) in
  let relativeStart := to_integer start in
  let actualStart :=
    if decide (relativeStart < 0) then Z.max (len + relativeStart) 0
    else Z.min relativeStart len in
  let actualDeleteCount :=
    Z.min (Z.max (to_integer deleteCount) 0) (len - actualStart) in
  let s := Z.to_nat actualStart in
  let d := Z.to_nat actualDeleteCount in
  (take d (drop s arr), take s arr ++ drop (s + d) arr).

(** What a call can throw or reject with: an [Error] built by the pool, the
    TypeError of a call or property read on undefined, the ReferenceError of an
    unbound variable, or whatever an Instance Handle rejects with. *)
Inductive error :=
| Error (message : string)
| TypeError
| ReferenceError (variable : string)
| HandleFailure.

(** Completion of a call: a synchronous method returns or throws, an
    asynchronous one resolves or rejects. *)
Inductive completion (A : Type) :=
| Normal (a : A)
| Abrupt (e : error).
Global Arguments Normal {A} a.
Global Arguments Abrupt {A} e.

End JS.

Import JS.

(** ** [Array.prototype.rotate] (lines 47-63) *)

Definition rotate {A} (count : Z) (this : list A) : list A :=
  let len := to_uint32 (Z.of_nat (length this)) in
  let count := to_int32 count in
  let count := rem (add (rem (Int count) (Int len)) (Int len)) (Int len) in
  let '(removed, rest) := splice (Int 0) count this in
  rest ++ removed.

(** ** Data model *)

(** Heap locations of JavaScript objects. *)
Abbreviation loc := positive (only parsing).

(** Values stored under the keys of a configuration object.  Nested values
    are finite trees: the pool only ever writes top-level keys of a
    configuration object, so nothing below the top level is mutable here. *)
Inductive json :=
| JNull
| JBool (b : bool)
| JNum (z : Z)
| JStr (s : string)
| JArr (items : list json)
| JObj (fields : list (string * json)).

(** JavaScript truthiness, as tested by [||] and [&&]. *)
Definition truthy (v : json) : bool :=
  match v with
  | JNull => false
  | JBool b => b
  | JNum z => bool_decide (z ≠ 0)
  | JStr s => bool_decide (s ≠ EmptyString)
  | JArr _ | JObj _ => true
  end.

(** A configuration object: keyword to value. *)
Abbreviation config_object := (gmap string json) (only parsing).

(** An instance definition [{ Name, Config, Weight, Group }].  [Name] and
    [Weight] may be undefined ([None]); [Config] refers to a configuration
    object on the heap. *)
Record InstanceDefinition := {
  Name : option string;
  Config : option loc;
  Weight : option Z;
  Group : list string
}.

(** [x.Name] in a boolean position: undefined and the empty string are falsy. *)
Definition truthy_name (n : option string) : bool :=
  match n with
  | Some s => bool_decide (s ≠ EmptyString)
  | None => false
  end.

(** Modelled from the spec: the Instance Handle ([./TorProcess], not part of
    this file).  It is constructed from the definition object it is given and
    keeps a reference to it; [id] is assigned by the pool right after
    construction.  [handle] is the identity of the JavaScript object. *)
Record TorProcess := {
  handle : nat;
  id : string;
  definition : loc
}.

Global Instance json_inhabited : Inhabited json := populate JNull.
Global Instance InstanceDefinition_eq_dec : EqDecision InstanceDefinition.
Proof. solve_decision. Defined.
Global Instance TorProcess_eq_dec : EqDecision TorProcess.
Proof. solve_decision. Defined.

(** The [js-weighted-list] cache that the weighted method hangs on the
    instance array: one [key, weight, data] entry per instance. *)
Record wl_entry := {
  wl_key : string;
  wl_weight : option Z;
  wl_data : TorProcess
}.

Abbreviation WeightedList := (list wl_entry) (only parsing).

(** [this._default_tor_config]: nothing, a static object, or a zero-argument
    generator returning a new configuration object on every call. *)
Inductive default_config :=
| NoDefault
| StaticDefault (l : loc)
| DefaultGenerator (produces : config_object).

(** The pool object together with the part of the world it acts on.

    [_weighted_list] is the property of that name carried by the array
    currently held in [this._instances]. *)
Record World := {
  _instances : list TorProcess;
  _weighted_list : option WeightedList;
  _default_tor_config : default_config;
  data_directory : string;
  load_balance_method : string;
  definitions : gmap loc InstanceDefinition;
  configs : gmap loc config_object;
  directories : gset string;
  constructed : nat;
  emitted : list TorProcess
}.

Definition set_instances (f : list TorProcess → list TorProcess) (w : World) :=
  {| _instances := f (_instances w); _weighted_list := _weighted_list w;
     _default_tor_config := _default_tor_config w;
     data_directory := data_directory w;
     load_balance_method := load_balance_method w;
     definitions := definitions w; configs := configs w;
     directories := directories w; constructed := constructed w;
     emitted := emitted w |}.

Definition set_weighted_list (c : option WeightedList) (w : World) :=
  {| _instances := _instances w; _weighted_list := c;
     _default_tor_config := _default_tor_config w;
     data_directory := data_directory w;
     load_balance_method := load_balance_method w;
     definitions := definitions w; configs := configs w;
     directories := directories w; constructed := constructed w;
     emitted := emitted w |}.

Definition set_definitions
  (f : gmap loc InstanceDefinition → gmap loc InstanceDefinition) (w : World) :=
  {| _instances := _instances w; _weighted_list := _weighted_list w;
     _default_tor_config := _default_tor_config w;
     data_directory := data_directory w;
     load_balance_method := load_balance_method w;
     definitions := f (definitions w); configs := configs w;
     directories := directories w; constructed := constructed w;
     emitted := emitted w |}.

Definition set_configs
  (f : gmap loc config_object → gmap loc config_object) (w : World) :=
  {| _instances := _instances w; _weighted_list := _weighted_list w;
     _default_tor_config := _default_tor_config w;
     data_directory := data_directory w;
     load_balance_method := load_balance_method w;
     definitions := definitions w; configs := f (configs w);
     directories := directories w; constructed := constructed w;
     emitted := emitted w |}.

Definition set_directories (f : gset string → gset string) (w : World) :=
  {| _instances := _instances w; _weighted_list := _weighted_list w;
     _default_tor_config := _default_tor_config w;
     data_directory := data_directory w;
     load_balance_method := load_balance_method w;
     definitions := definitions w; configs := configs w;
     directories := f (directories w); constructed := constructed w;
     emitted := emitted w |}.

Definition set_constructed (n : nat) (w : World) :=
  {| _instances := _instances w; _weighted_list := _weighted_list w;
     _default_tor_config := _default_tor_config w;
     data_directory := data_directory w;
     load_balance_method := load_balance_method w;
     definitions := definitions w; configs := configs w;
     directories := directories w; constructed := n;
     emitted := emitted w |}.

Definition emit (i : TorProcess) (w : World) :=
  {| _instances := _instances w; _weighted_list := _weighted_list w;
     _default_tor_config := _default_tor_config w;
     data_directory := data_directory w;
     load_balance_method := load_balance_method w;
     definitions := definitions w; configs := configs w;
     directories := directories w; constructed := constructed w;
     emitted := emitted w ++ [i] |}.

(** The pool built by the constructor (lines 80-91): no instance yet. *)
Definition new_pool (default_config : default_config) (data_directory : string)
    (load_balance_method : string)
    (definitions : gmap loc InstanceDefinition)
    (configs : gmap loc config_object) (directories : gset string) : World :=
  {| _instances := []; _weighted_list := None;
     _default_tor_config := default_config;
     data_directory := data_directory;
     load_balance_method := load_balance_method;
     definitions := definitions; configs := configs;
     directories := directories; constructed := 0%nat; emitted := [] |}.

(** Modelled from the spec: the readable attributes [instance_name] and
    [instance_group] of the Instance Handle.  An instance has an optional
    name, the [Name] of its definition; a [Name] that is undefined or empty is
    no name, as it is for the pool itself at lines 235 and 241.  The label
    set is the definition's [Group].  Both are read through the reference to
    the definition, so a write to the definition shows at once. *)
Definition instance_name (w : World) (i : TorProcess) : option string :=
  d ← definitions w !! definition i;
  if truthy_name (Name d) then Name d else None.

Definition instance_group (w : World) (i : TorProcess) : list string :=
  match definitions w !! definition i with
  | Some d => Group d
  | None => []
  end.

(** [get instances()] (line 223): a copy of the array. *)
Definition instances (w : World) : list TorProcess := _instances w.

(** [get instance_names()] (line 227). *)
Definition instance_names (w : World) : list (option string) :=
  instance_name w <$> instances w.

(** [instance_by_name] (line 276) and [instance_at] (line 280). *)
Definition instance_by_name (w : World) (name : option string)
  : option TorProcess :=
  head (filter (λ i, instance_name w i = name) (_instances w)).

Definition instance_at (w : World) (index : nat) : option TorProcess :=
  _instances w !! index.

(** [arr.indexOf(x)]: the first position holding [x], or -1. *)
Fixpoint indexOf {A} `{EqDecision A} (x : A) (arr : list A) : Z :=
  match arr with
  | [] => -1
  | y :: arr =>
      if decide (y = x) then 0
      else let r := indexOf x arr in if decide (r = -1) then -1 else 1 + r
  end.

(** ** The lodash functions the pool calls *)

Module Lodash.

(** [_.uniq]: the first occurrence of every value, in order. *)
Fixpoint uniq_from {A} `{EqDecision A} (seen : list A) (array : list A)
  : list A :=
  match array with
  | [] => []
  | x :: array =>
      if decide (x ∈ seen) then uniq_from seen array
      else x :: uniq_from (x :: seen) array
  end.

Definition uniq {A} `{EqDecision A} (array : list A) : list A :=
  uniq_from [] array.

(** [_.union(a, b)]: the unique values of both arrays, in order. *)
Definition union {A} `{EqDecision A} (a b : list A) : list A :=
  uniq (a ++ b).

(** [_.flatten]: one level. *)
Definition flatten {A} (arrays : list (list A)) : list A := concat arrays.

(** [_.remove(array, predicate)]: what is left in the array once every
    element satisfying the predicate has been pulled out of it. *)
Definition remove {A} (predicate : A → bool) (array : list A) : list A :=
  List.filter (λ x, negb (predicate x)) array.

(** [_.sortBy(collection, iteratee)]: a stable sort in ascending order of
    the iteratee.  [le a b] says that [a] does not sort after [b]. *)
Section sortBy.
Context {A B : Type} (le : B → B → bool) (iteratee : A → B).

Fixpoint insert_sorted (x : A) (sorted : list A) : list A :=
  match sorted with
  | [] => [x]
  | y :: sorted' =>
      if le (iteratee x) (iteratee y) then x :: sorted
      else y :: insert_sorted x sorted'
  end.

Definition sortBy (collection : list A) : list A :=
  foldr insert_sorted [] collection.
End sortBy.

(** lodash's ascending comparison on names: strings by code unit,
    [undefined] after every string. *)
Definition name_le (a b : option string) : bool :=
  match a, b with
  | Some x, Some y => String.leb x y
  | Some _, None => true
  | None, Some _ => false
  | None, None => true
  end.

(** [_.extend(object, source)] on the contents of two objects: the keys of
    [source] overwrite those of [object]. *)
Definition extend (object source : gmap string json) : gmap string json :=
  source ∪ object.

End Lodash.

(** ** Group membership (lines 93-135) *)

Definition with_Group (g : list string) (d : InstanceDefinition) :=
  {| Name := Name d; Config := Config d; Weight := Weight d; Group := g |}.

Definition with_Config (c : option loc) (d : InstanceDefinition) :=
  {| Name := Name d; Config := c; Weight := Weight d; Group := Group d |}.

(** [get group_names()] (line 93): every label in use, each once, sorted.
    [.filter(Boolean)] drops nothing here, a label array being truthy. *)
Definition group_names (w : World) : list string :=
  Lodash.sortBy String.leb (λ label, label)
    (Lodash.uniq (Lodash.flatten (instance_group w <$> instances w))).

(** [add_instance_to_group] (line 97). *)
Definition add_instance_to_group (group : string) (instance : TorProcess)
    (w : World) : World :=
  set_definitions
    (alter (with_Group (Lodash.union (instance_group w instance) [group]))
       (definition instance)) w.

(** [remove_instance_from_group] (line 117). *)
Definition remove_instance_from_group (group : string) (instance : TorProcess)
    (w : World) : World :=
  set_definitions
    (alter (λ d, with_Group
                   (Lodash.remove (λ g, bool_decide (g = group)) (Group d)) d)
       (definition instance)) w.

(** The [*_by_name] and [*_at] variants (lines 101-115, 121-135) throw when the
    lookup comes back undefined. *)
Definition quoted (s : string) : string :=
  String (Ascii.ascii_of_nat 34) (s +:+ String (Ascii.ascii_of_nat 34) EmptyString).

Definition not_found (name : string) : error :=
  Error ("Instance " +:+ quoted name +:+ " not found").

Definition not_found_at (index : string) : error :=
  Error ("Instance at " +:+ quoted index +:+ " not found").

Definition add_instance_to_group_by_name (group instance_name : string)
    (w : World) : completion () * World :=
  match instance_by_name w (Some instance_name) with
  | None => (Abrupt (not_found instance_name), w)
  | Some instance => (Normal (), add_instance_to_group group instance w)
  end.

Definition add_instance_to_group_at (group : string) (instance_index : nat)
    (w : World) : completion () * World :=
  match instance_at w instance_index with
  | None => (Abrupt (not_found_at (pretty instance_index)), w)
  | Some instance => (Normal (), add_instance_to_group group instance w)
  end.

Definition remove_instance_from_group_by_name (group instance_name : string)
    (w : World) : completion () * World :=
  match instance_by_name w (Some instance_name) with
  | None => (Abrupt (not_found instance_name), w)
  | Some instance => (Normal (), remove_instance_from_group group instance w)
  end.

Definition remove_instance_from_group_at (group : string) (instance_index : nat)
    (w : World) : completion () * World :=
  match instance_at w instance_index with
  | None => (Abrupt (not_found_at (pretty instance_index)), w)
  | Some instance => (Normal (), remove_instance_from_group group instance w)
  end.

(** ** Group views (lines 137-190) *)

(** What the inner proxy wraps: the instances of the group, tagged with the
    group's name. *)
Record GroupView := {
  instances_in_group : list TorProcess;
  group_name : string
}.

(** [groupsHandler.get(group_names, prop)] (lines 174-186). *)
Definition groups_get (w : World) (group_names : list string) (prop : string)
  : GroupView :=
  let instances_in_group :=
    if decide (prop ∈ group_names)
    then filter (λ instance, indexOf prop (instance_group w instance) ≠ -1)
           (instances w)
    else [] in
  let instances_in_group :=
    Lodash.sortBy Lodash.name_le (instance_name w) instances_in_group in
  {| instances_in_group := instances_in_group; group_name := prop |}.

(** [pool.groups[L]]: the [groups] getter (line 189) takes [group_names] as it
    is now and the outer proxy answers the property read. *)
Definition groups (w : World) (L : string) : GroupView :=
  groups_get w (group_names w) L.

(** [groupHandler.get] (lines 139-170), one definition per trapped property. *)
Definition view_item (view : GroupView) (index : nat) : option TorProcess :=
  instances_in_group view !! index.

Definition view_length (view : GroupView) : nat :=
  length (instances_in_group view).

Definition view_add (view : GroupView) (instance : TorProcess) (w : World)
  : World :=
  add_instance_to_group (group_name view) instance w.

Definition view_add_by_name (view : GroupView) (instance_name : string)
    (w : World) : completion () * World :=
  add_instance_to_group_by_name (group_name view) instance_name w.

Definition view_remove (view : GroupView) (instance : TorProcess) (w : World)
  : World :=
  remove_instance_from_group (group_name view) instance w.

Definition view_remove_by_name (view : GroupView) (instance_name : string)
    (w : World) : completion () * World :=
  remove_instance_from_group_by_name (group_name view) instance_name w.

(** [remove_at] reads [instances[instance_index]] of the view; past the end
    that is undefined and reading its [definition] throws. *)
Definition view_remove_at (view : GroupView) (instance_index : nat)
    (w : World) : completion () * World :=
  match instances_in_group view !! instance_index with
  | None => (Abrupt TypeError, w)
  | Some instance =>
      (Normal (), remove_instance_from_group (group_name view) instance w)
  end.

(** ** Load balancing (lines 203-221, 305-308) *)

(** Modelled from the spec: the [js-weighted-list] package.  [peek n] draws
    [n] entries by weighted random sampling without replacement and fails
    when the list holds fewer than [n].  The outcome of the random draws is
    taken from [random], one number per draw, as a position among the entries
    not drawn yet. *)
Module WeightedList.

Fixpoint draw (random : list nat) (n : nat) (entries : list wl_entry)
  : list wl_entry :=
  match n with
  | O => []
  | S n =>
      let k := (hd O random `mod` length entries)%nat in
      match entries !! k with
      | Some e => e :: draw (tl random) n (delete k entries)
      | None => []
      end
  end.

Definition peek (random : list nat) (n : nat) (wl : list wl_entry)
  : option (list wl_entry) :=
  if decide (n ≤ length wl)%nat then Some (draw random n wl) else None.

End WeightedList.

(** An array of instances with its [_weighted_list] property. *)
Abbreviation instance_array :=
  (list TorProcess * option (list wl_entry))%type (only parsing).

Definition round_robin (instances : instance_array) : instance_array :=
  (rotate 1 instances.1, instances.2).

Definition weighted_entry (w : World) (instance : TorProcess) : wl_entry :=
  {| wl_key := id instance;
     wl_weight := d ← definitions w !! definition instance; Weight d;
     wl_data := instance |}.

(** [weighted] (lines 208-219).  The cache is built on the array it is given
    when that array has none, and handed over to the array it returns.  The
    first component of the result is the cache the call reads, which is also
    what stays on the given array should [peek] throw. *)
Definition weighted (random : list nat) (w : World)
    (instances : instance_array) : list wl_entry * option instance_array :=
  let cache :=
    match instances.2 with
    | Some wl => wl
    | None => weighted_entry w <$> instances.1
    end in
  match WeightedList.peek random (length instances.1) cache with
  | Some elements => (cache, Some (wl_data <$> elements, Some cache))
  | None => (cache, None)
  end.

(** [next] (lines 305-308). *)
Definition next (random : list nat) (w : World)
  : completion (option TorProcess) * World :=
  if decide (load_balance_method w = "round_robin") then
    let '(arr, wl) := round_robin (_instances w, _weighted_list w) in
    let w := set_weighted_list wl (set_instances (λ _, arr) w) in
    (Normal (head (instances w)), w)
  else if decide (load_balance_method w = "weighted") then
    match weighted random w (_instances w, _weighted_list w) with
    | (_, Some (arr, wl)) =>
        let w := set_weighted_list wl (set_instances (λ _, arr) w) in
        (Normal (head (instances w)), w)
    | (cache, None) =>
        (Abrupt (Error "Stack underflow"), set_weighted_list (Some cache) w)
    end
  else (Abrupt TypeError, w).

(** ** Creation and removal (lines 192-199, 231-313) *)

(** What the outside world contributes to one [create_instance] call: the id
    drawn by [nanoid] and what the Instance Handle does.  Either [create()]
    rejects, or it resolves and the handle then signals exactly one of
    [error] and [ready]. *)
Inductive startup :=
| create_rejects
| signals_error
| signals_ready.

Record creation := {
  nanoid : string;
  startup_outcome : startup
}.

(** A new object on the heap. *)
Definition alloc (o : gmap string json) (heap : gmap loc config_object)
  : loc * gmap loc config_object :=
  let l := fresh (dom heap) in (l, <[l := o]> heap).

(** [_.cloneDeep(value)]: a new object with a copy of every value. *)
Definition cloneDeep (l : loc) (heap : gmap loc config_object)
  : loc * gmap loc config_object :=
  alloc (default ∅ (heap !! l)) heap.

(** [get default_tor_config()] (lines 192-199). *)
Definition default_tor_config (w : World) : loc * World :=
  let '(l, heap) :=
    match _default_tor_config w with
    | DefaultGenerator produces => alloc produces (configs w)
    | StaticDefault l => cloneDeep l (configs w)
    | NoDefault => alloc ∅ (configs w)
    end in
  (l, set_configs (λ _, heap) w).

(** The message of the error thrown at line 236. *)
Definition already_exists (name : string) : error :=
  Error ("Instance named " +:+ name +:+ " already exists").

Section TorPool.

(** [path.join] of Node.js, applied to two segments. *)
Variable path_join : string → string → string.

(** Line 239: the default is copied, the copy is extended with the
    definition's own [Config] and becomes the definition's [Config]. *)
Definition merge_config (instance_definition : loc)
    (def : InstanceDefinition) (w : World) : loc * World :=
  let '(dflt, w) := default_tor_config w in
  let '(object, heap) := cloneDeep dflt (configs w) in
  let w := set_configs (λ _, heap) w in
  let source :=
    match Config def with
    | Some c => default ∅ (configs w !! c)
    | None => ∅
    end in
  let w := set_configs (alter (λ o, Lodash.extend o source) object) w in
  (object, set_definitions
             (alter (with_Config (Some object)) instance_definition) w).

(** Line 241: [Config.DataDirectory = Config.DataDirectory || path.join(..)]. *)
Definition data_directory_of (w : World) (def : InstanceDefinition)
    (instance_id : string) (o : gmap string json) : json :=
  let fallback :=
    JStr (path_join (data_directory w)
            (if truthy_name (Name def) then default instance_id (Name def)
             else instance_id)) in
  match o !! "DataDirectory" with
  | Some v => if truthy v then v else fallback
  | None => fallback
  end.

(** Lines 232-233: the base directory is made when it is not there.  The
    file system is a set of directories here, and making one succeeds. *)
Definition ensure_data_directory (w : World) : World :=
  if decide (data_directory w ∈ directories w) then w
  else set_directories (λ ds, {[data_directory w]} ∪ ds) w.

(** The test of line 235. *)
Definition name_taken (w : World) (def : InstanceDefinition) : bool :=
  truthy_name (Name def)
  && bool_decide (indexOf (Name def) (instance_names w) ≠ -1).

(** Lines 232-247 of [create_instance]: everything up to the moment
    [await instance.create()] settles.  The handle is constructed and
    started; it is not in the array yet. *)
Definition create_instance_start (env : creation) (instance_definition : loc)
    (w : World) : completion TorProcess * World :=
  let w := ensure_data_directory w in
  match definitions w !! instance_definition with
  | None => (Abrupt TypeError, w)
  | Some def =>
      if name_taken w def
      then (Abrupt (already_exists (default EmptyString (Name def))), w)
      else
        let w := set_weighted_list None w in
        let '(object, w) := merge_config instance_definition def w in
        let instance_id := nanoid env in
        let w :=
          set_configs
            (alter (λ o, <["DataDirectory" :=
                             data_directory_of w def instance_id o]> o)
               object) w in
        let instance :=
          {| handle := constructed w; id := instance_id;
             definition := instance_definition |} in
        let w := set_constructed (S (constructed w)) w in
        match startup_outcome env with
        | create_rejects => (Abrupt HandleFailure, w)
        | _ => (Normal instance, w)
        end
  end.

(** Lines 249-258: the instance is pushed onto the array, and the call then
    waits for the one signal of the handle. *)
Definition create_instance_finish (env : creation) (instance : TorProcess)
    (w : World) : completion TorProcess * World :=
  let w := set_instances (λ arr, arr ++ [instance]) w in
  match startup_outcome env with
  | signals_ready => (Normal instance, emit instance w)
  | _ => (Abrupt HandleFailure, w)
  end.

(** [create_instance] (lines 231-259), with no other call of the pool in
    between its two halves. *)
Definition create_instance (env : creation) (instance_definition : loc)
    (w : World) : completion TorProcess * World :=
  match create_instance_start env instance_definition w with
  | (Normal instance, w) => create_instance_finish env instance w
  | (Abrupt e, w) => (Abrupt e, w)
  end.

End TorPool.

(** Whether the [exit()] of a handle resolves is up to the handle. *)
Abbreviation exits := (TorProcess → bool) (only parsing).

(** [remove] (lines 284-288). *)
Definition remove (exit_of : exits) (instances : Z) (w : World)
  : completion () * World :=
  let w := set_weighted_list None w in
  let '(instances_to_remove, rest) :=
    splice (Int 0) (Int instances) (_instances w) in
  let w := set_instances (λ _, rest) w in
  if forallb exit_of instances_to_remove then (Normal (), w)
  else (Abrupt HandleFailure, w).

(** [remove_at] (lines 290-295). *)
Definition remove_at (exit_of : exits) (instance_index : Z) (w : World)
  : completion () * World :=
  let w := set_weighted_list None w in
  let '(removed, rest) := splice (Int instance_index) (Int 1) (_instances w) in
  let w := set_instances (λ _, rest) w in
  match head removed with
  | None => (Abrupt TypeError, w)
  | Some instance =>
      if exit_of instance then (Normal (), w) else (Abrupt HandleFailure, w)
  end.

(** [remove_by_name] (lines 297-303).  The message of line 300 interpolates
    [name], which is bound neither in the method (its parameter is
    [instance_name]) nor in the module: evaluating the template literal
    throws a ReferenceError before any [Error] is built. *)
Definition remove_by_name (exit_of : exits) (instance_name : string)
    (w : World) : completion () * World :=
  match instance_by_name w (Some instance_name) with
  | None => (Abrupt (ReferenceError "name"), w)
  | Some instance =>
      let instance_index := indexOf instance (instances w) in
      remove_at exit_of instance_index w
  end.

(** [exit] (lines 310-313): the array is replaced only once every handle
    has exited. *)
Definition exit (exit_of : exits) (w : World) : completion () * World :=
  if forallb exit_of (_instances w)
  then (Normal (), set_weighted_list None (set_instances (λ _, []) w))
  else (Abrupt HandleFailure, w).

(** ** Calls on a pool, one after the other *)

(** The public operations that touch the instance array, its cache, or what
    they depend on.  The arguments that stand for the outside world (random
    draws, handle behaviour) travel with the call. *)
Inductive call :=
| CreateInstance (env : creation) (instance_definition : loc)
| Remove (exit_of : exits) (instances : Z)
| RemoveAt (exit_of : exits) (instance_index : Z)
| RemoveByName (exit_of : exits) (instance_name : string)
| Exit (exit_of : exits)
| Next (random : list nat)
| AddInstanceToGroup (group : string) (instance : TorProcess)
| RemoveInstanceFromGroup (group : string) (instance : TorProcess)
| SetLoadBalanceMethod (method : string)
| SetDefaultTorConfig (value : default_config).

(** The operations the pool offers for changing its membership. *)
Definition membership_operation (c : call) : bool :=
  match c with
  | CreateInstance _ _ | Remove _ _ | RemoveAt _ _ | RemoveByName _ _
  | Exit _ => true
  | _ => false
  end.

Definition set_load_balance_method (m : string) (w : World) :=
  {| _instances := _instances w; _weighted_list := _weighted_list w;
     _default_tor_config := _default_tor_config w;
     data_directory := data_directory w;
     load_balance_method := m;
     definitions := definitions w; configs := configs w;
     directories := directories w; constructed := constructed w;
     emitted := emitted w |}.

(** [set default_tor_config(value)] (line 201). *)
Definition set_default_tor_config (value : default_config) (w : World) :=
  {| _instances := _instances w; _weighted_list := _weighted_list w;
     _default_tor_config := value;
     data_directory := data_directory w;
     load_balance_method := load_balance_method w;
     definitions := definitions w; configs := configs w;
     directories := directories w; constructed := constructed w;
     emitted := emitted w |}.

Section Calls.

Variable path_join : string → string → string.

(** The world a call leaves behind, whether it completes normally or
    not. *)
Definition run (c : call) (w : World) : World :=
  match c with
  | CreateInstance env d => (create_instance path_join env d w).2
  | Remove exit_of n => (remove exit_of n w).2
  | RemoveAt exit_of index => (remove_at exit_of index w).2
  | RemoveByName exit_of name => (remove_by_name exit_of name w).2
  | Exit exit_of => (exit exit_of w).2
  | Next random => (next random w).2
  | AddInstanceToGroup group instance =>
      add_instance_to_group group instance w
  | RemoveInstanceFromGroup group instance =>
      remove_instance_from_group group instance w
  | SetLoadBalanceMethod m => set_load_balance_method m w
  | SetDefaultTorConfig value => set_default_tor_config value w
  end.

(** The worlds a pool can be in: as constructed, then after any sequence
    of calls, each one finished before the next begins. *)
Inductive reachable : World → Prop :=
| reachable_new dflt dir method defs cfgs dirs :
    reachable (new_pool dflt dir method defs cfgs dirs)
| reachable_run c w : reachable w → reachable (run c w).

End Calls.

(** The cache, when there is one, was built for the instances in the pool. *)
Definition cache_current (w : World) : Prop :=
  match _weighted_list w with
  | None => True
  | Some wl => wl_data <$> wl ≡ₚ _instances w
  end.

(** [next()] called [n] times in a row under a method that draws nothing at
    random: what each call returned, and the world at the end. *)
Fixpoint next_times (n : nat) (w : World)
  : list (completion (option TorProcess)) * World :=
  match n with
  | O => ([], w)
  | S n =>
      let '(r, w) := next [] w in
      let '(rs, w) := next_times n w in
      (r :: rs, w)
  end.


(** The contents [create_instance] starts from: what the default
    configuration holds, and what the definition's own [Config] holds. *)
Definition default_content (w : World) : gmap string json :=
  match _default_tor_config w with
  | DefaultGenerator produces => produces
  | StaticDefault l => default ∅ (configs w !! l)
  | NoDefault => ∅
  end.

Definition override_content (w : World) (def : InstanceDefinition)
  : gmap string json :=
  match Config def with
  | Some c => default ∅ (configs w !! c)
  | None => ∅
  end.

(** ** Sample pools *)

Module Sample.

Definition path_join (a b : string) : string := a +:+ "/" +:+ b.

Definition def (name : string) (group : list string) : InstanceDefinition :=
  {| Name := Some name; Config := None; Weight := Some 1; Group := group |}.

Definition A : TorProcess := {| handle := 0; id := "a"; definition := 1 |}.
Definition B : TorProcess := {| handle := 1; id := "b"; definition := 2 |}.
Definition C : TorProcess := {| handle := 2; id := "c"; definition := 3 |}.

(** A nameless definition with a [Config] of its own, the object at 2. *)
Definition E : InstanceDefinition :=
  {| Name := None; Config := Some 2%positive; Weight := None; Group := [] |}.

Definition defs : gmap loc InstanceDefinition :=
  <[1%positive := def "A" ["g"]]>
    (<[2%positive := def "B" []]>
       (<[3%positive := def "C" ["g"; "h"]]>
          (<[4%positive := def "D" []]>
             (<[5%positive := E]> ∅)))).

Definition cfgs : gmap loc config_object :=
  <[1%positive := {[ "Log" := JStr "notice stdout" ]}]>
    (<[2%positive := {[ "Log" := JStr "warn stdout" ]}]> ∅).

(** A pool just constructed. *)
Definition empty (method : string) : World :=
  new_pool (StaticDefault 1) "/tmp/tor" method defs cfgs ∅.

(** A pool holding A, B and C, in that order. *)
Definition abc (method : string) : World :=
  set_constructed 3 (set_instances (λ _, [A; B; C]) (empty method)).

Definition all_exit : exits := λ _, true.

Definition fails : creation :=
  {| nanoid := "d"; startup_outcome := signals_error |}.

Definition succeeds : creation :=
  {| nanoid := "d"; startup_outcome := signals_ready |}.

End Sample.

(** ** The world after a creation, in closed form *)

(** The two objects a creation allocates: the copy handed out by the
    [default_tor_config] getter, then the copy of that copy which becomes the
    definition's [Config]. *)
Definition default_copy (w : World) : loc := fresh (dom (configs w)).

Definition effective_object (w : World) : loc :=
  fresh (dom (<[default_copy w := default_content w]> (configs w))).

(** A definition whose [Config], if any, is an object of the heap. *)
Definition well_formed_definition (w : World) (def : InstanceDefinition)
  : Prop :=
  ∀ c, Config def = Some c → is_Some (configs w !! c).

Section Created.

Variable path_join : string → string → string.

Definition effective_config (env : creation) (w : World)
    (def : InstanceDefinition) : gmap string json :=
  let merged :=
    Lodash.extend (default_content w) (override_content w def) in
  <["DataDirectory" :=
      data_directory_of path_join w def (nanoid env) merged]> merged.

Definition created (env : creation) (d : loc) (def : InstanceDefinition)
    (w : World) : World :=
  let instance :=
    {| handle := constructed w; id := nanoid env; definition := d |} in
  {| _instances :=
       match startup_outcome env with
       | create_rejects => _instances w
       | _ => _instances w ++ [instance]
       end;
     _weighted_list := None;
     _default_tor_config := _default_tor_config w;
     data_directory := data_directory w;
     load_balance_method := load_balance_method w;
     definitions :=
       alter (with_Config (Some (effective_object w))) d (definitions w);
     configs :=
       <[effective_object w := effective_config env w def]>
         (<[default_copy w := default_content w]> (configs w));
     directories := {[data_directory w]} ∪ directories w;
     constructed := S (constructed w);
     emitted :=
       match startup_outcome env with
       | signals_ready => emitted w ++ [instance]
       | _ => emitted w
       end |}.

End Created.

(** ** Notions used in the statements below *)

(** Where [splice(index, 1)] starts in an array of [len] elements: a negative
    index counts from the end, and both ends clamp. *)
Definition splice_start (index : Z) (len : nat) : nat :=
  Z.to_nat (if decide (index < 0) then Z.max (Z.of_nat len + index) 0
            else Z.min index (Z.of_nat len)).

(** The names of the instances that have one, in pool order. *)
Definition names (w : World) : list string :=
  omap (instance_name w) (_instances w).

(** A static default configuration is an object of the heap. *)
Definition default_allocated (w : World) : Prop :=
  match _default_tor_config w with
  | StaticDefault l => is_Some (configs w !! l)
  | _ => True
  end.

(** A pool with a base directory, holding A, B and C, and two definitions
    that both ask for the name D. *)
Module Twins.

Definition world : World :=
  set_definitions (<[6%positive := Sample.def "D" ["g"]]>)
    (set_directories (λ _, {["/tmp/tor"]}) (Sample.abc "round_robin")).

Definition first : creation :=
  {| nanoid := "d1"; startup_outcome := signals_ready |}.

Definition second : creation :=
  {| nanoid := "d2"; startup_outcome := signals_ready |}.

End Twins.

(** * Properties *)

(** ** Rotation and round-robin selection *)

Example rotate_abc : rotate 1 [1; 2; 3] = [2; 3; 1].
Proof. reflexivity. Qed.

Example rotate_empty : rotate 1 ([] : list Z) = [].
Proof. reflexivity. Qed.

Lemma to_uint32_small (z : Z) : 0 ≤ z < 2 ^ 32 → to_uint32 z = z.
Proof. intros ?. unfold to_uint32. by rewrite Z.mod_small. Qed.

Lemma splice_front {A} (n : nat) (arr : list A) :
  (n ≤ length arr)%nat →
  splice (Int 0) (Int (Z.of_nat n)) arr = (take n arr, drop n arr).
Proof.
  intros Hn. unfold splice. cbn [to_integer].
  destruct (decide (0 < 0)) as [?|_]; [lia|].
  replace (Z.min 0 (Z.of_nat (length arr))) with 0 by lia.
  replace (Z.min (Z.max (Z.of_nat n) 0) (Z.of_nat (length arr) - 0))
    with (Z.of_nat n) by lia.
  rewrite Nat2Z.id. reflexivity.
Qed.

(** Rotating by one moves the first element to the end. *)
Lemma rotate_1_cons {A} (x : A) (arr : list A) :
  Z.of_nat (length (x :: arr)) < 2 ^ 32 →
  rotate 1 (x :: arr) = arr ++ [x].
Proof.
  intros Hlen. unfold rotate.
  rewrite to_uint32_small by lia.
  change (to_int32 1) with 1.
  destruct arr as [|y arr].
  - reflexivity.
  - set (n := Z.of_nat (length (x :: y :: arr))) in *.
    assert (2 ≤ n) by (subst n; simpl length; lia).
    unfold rem at 2. destruct (decide (n = 0)) as [?|_]; [lia|].
    rewrite Z.rem_small by lia. unfold add, rem.
    destruct (decide (n = 0)) as [?|_]; [lia|].
    replace (Z.rem (1 + n) n) with (Z.of_nat 1).
    + rewrite splice_front by (simpl; lia). reflexivity.
    + rewrite Z.rem_mod_nonneg by lia.
      rewrite Z.add_comm, <- Zplus_mod_idemp_l, Z_mod_same_full.
      rewrite Z.mod_small by lia. reflexivity.
Qed.

Lemma rotate_nil {A} (count : Z) : rotate count ([] : list A) = [].
Proof.
  unfold rotate. simpl length. change (to_uint32 (Z.of_nat 0)) with 0.
  unfold rem at 2. destruct (decide (0 = 0)); [|done]. reflexivity.
Qed.

Lemma take_drop_Permutation {A} (s d : nat) (arr : list A) :
  take d (drop s arr) ++ take s arr ++ drop (s + d) arr ≡ₚ arr.
Proof.
  transitivity (take s arr ++ take d (drop s arr) ++ drop (s + d) arr).
  - rewrite !app_assoc. apply Permutation_app_tail, Permutation_app_comm.
  - by rewrite <- drop_drop, take_drop, take_drop.
Qed.

Lemma splice_Permutation {A} (start deleteCount : number) (arr : list A) :
  (splice start deleteCount arr).1 ++ (splice start deleteCount arr).2 ≡ₚ arr.
Proof. unfold splice. cbn [fst snd]. apply take_drop_Permutation. Qed.

Lemma rotate_Permutation {A} (count : Z) (arr : list A) :
  rotate count arr ≡ₚ arr.
Proof.
  unfold rotate.
  set (c := rem _ _).
  pose proof (splice_Permutation (Int 0) c arr) as Hp.
  destruct (splice (Int 0) c arr) as [removed rest]. cbn [fst snd] in Hp.
  by rewrite Permutation_app_comm.
Qed.

Lemma next_round_robin (random : list nat) (w : World) :
  load_balance_method w = "round_robin" →
  next random w =
    (Normal (head (rotate 1 (_instances w))),
     set_instances (rotate 1) w).
Proof.
  intros Hm. unfold next. rewrite Hm.
  destruct (decide ("round_robin" = "round_robin")); [|done].
  destruct w; reflexivity.
Qed.

(** Under round_robin, [n] calls in a row return the first [n] instances of
    the rotated pool, and leave the pool rotated by [n]. *)
Lemma next_times_round_robin (n : nat) (w : World) :
  load_balance_method w = "round_robin" →
  Z.of_nat (length (_instances w)) < 2 ^ 32 →
  (n ≤ length (_instances w))%nat →
  (next_times n w).1
  = (λ i, Normal (Some i)) <$> take n (rotate 1 (_instances w))
  ∧ _instances (next_times n w).2
    = drop n (_instances w) ++ take n (_instances w).
Proof.
  revert w. induction n as [|n IH]; intros w Hm Hlen Hn.
  - simpl. rewrite drop_0, take_0. by rewrite app_nil_r.
  - cbn [next_times]. rewrite next_round_robin by done.
    destruct (_instances w) as [|x l] eqn:Hl; [simpl in Hn; lia|].
    rewrite rotate_1_cons by done.
    specialize (IH (set_instances (rotate 1) w)).
    cbn [_instances set_instances load_balance_method] in IH.
    change (load_balance_method (set_instances (rotate 1) w))
      with (load_balance_method w) in IH.
    rewrite Hl, rotate_1_cons in IH by done.
    destruct IH as [IHr IHi]; [done|by rewrite length_app, Nat.add_comm|
                               rewrite length_app; simpl in *; lia|].
    destruct (next_times n _) as [rs w']. cbn [fst snd] in *.
    simpl in Hn. split.
    + rewrite IHr. destruct l as [|y l].
      * assert (n = 0)%nat as -> by (simpl in Hn; lia). reflexivity.
      * change ((y :: l) ++ [x]) with (y :: (l ++ [x])).
        rewrite rotate_1_cons
          by (simpl in *; rewrite length_app in *; simpl in *; lia).
        cbn [head take fmap list_fmap]. do 2 f_equal.
        rewrite (take_app_le (l ++ [x]))
          by (rewrite length_app; simpl in *; lia).
        reflexivity.
    + rewrite IHi. simpl.
      rewrite drop_app_le, take_app_le by lia.
      by rewrite <- app_assoc.
Qed.

(** X3: round-robin over a pool of [n] instances: [n] calls in a row return
    every instance of the pool once and bring the pool back to the order it
    had. *)
Lemma round_robin_cycle (w : World) :
  load_balance_method w = "round_robin" →
  Z.of_nat (length (_instances w)) < 2 ^ 32 →
  (next_times (length (_instances w)) w).1
  ≡ₚ (λ i, Normal (Some i)) <$> _instances w
  ∧ _instances (next_times (length (_instances w)) w).2 = _instances w.
Proof.
  intros Hm Hlen.
  destruct (next_times_round_robin (length (_instances w)) w Hm Hlen)
    as [Hr Hi]; [done|].
  rewrite Hr, Hi. split.
  - rewrite take_ge by by rewrite rotate_Permutation.
    by rewrite rotate_Permutation.
  - by rewrite drop_all, firstn_all.
Qed.

Lemma round_robin_cycle_witness :
  let w := Sample.abc "round_robin" in
  (next_times 3 w).1 ≡ₚ (λ i, Normal (Some i)) <$> _instances w
  ∧ _instances (next_times 3 w).2 = _instances w.
Proof.
  apply (round_robin_cycle (Sample.abc "round_robin")); [reflexivity|].
  simpl. lia.
Defined.

(** C2, as the claim has it: the first call would return A.  It returns B,
    and so does the fourth. *)
Lemma next_round_robin_abc_not_A :
  let w := Sample.abc "round_robin" in
  (next [] w).1 = Normal (Some Sample.B)
  ∧ (next [] w).1 ≠ Normal (Some Sample.A)
  ∧ _instances (next [] w).2 = [Sample.B; Sample.C; Sample.A]
  ∧ (next_times 4 w).1 !! 3%nat = Some (Normal (Some Sample.B)).
Proof. vm_compute. repeat split; congruence. Qed.

(** C2, amended: under round_robin, with pool order [a, b, c], [next()]
    rotates the pool to [b, c, a] and returns its new first element b; three
    consecutive calls return b, c and a, each exactly once, and bring the
    pool back to [a, b, c]; the fourth call returns b again. *)
Theorem next_round_robin_abc (w : World) (a b c : TorProcess) :
  _instances w = [a; b; c] →
  load_balance_method w = "round_robin" →
  (next [] w).1 = Normal (Some b)
  ∧ _instances (next [] w).2 = [b; c; a]
  ∧ (next_times 3 w).1 = [Normal (Some b); Normal (Some c); Normal (Some a)]
  ∧ _instances (next_times 3 w).2 = [a; b; c]
  ∧ (next_times 4 w).1 !! 3%nat = Some (Normal (Some b)).
Proof.
  intros Hi Hm. destruct w; simpl in Hi, Hm; subst.
  vm_compute. done.
Qed.

Lemma next_round_robin_abc_witness :
  (next [] (Sample.abc "round_robin")).1 = Normal (Some Sample.B)
  ∧ _instances (next [] (Sample.abc "round_robin")).2
    = [Sample.B; Sample.C; Sample.A]
  ∧ (next_times 3 (Sample.abc "round_robin")).1
    = [Normal (Some Sample.B); Normal (Some Sample.C); Normal (Some Sample.A)]
  ∧ _instances (next_times 3 (Sample.abc "round_robin")).2
    = [Sample.A; Sample.B; Sample.C]
  ∧ (next_times 4 (Sample.abc "round_robin")).1 !! 3%nat
    = Some (Normal (Some Sample.B)).
Proof.
  apply (next_round_robin_abc (Sample.abc "round_robin")
           Sample.A Sample.B Sample.C); reflexivity.
Defined.

(** C10: on an empty pool under round_robin, [next()] does not throw; the
    rotation leaves the empty array as it is, [next()] returns undefined and
    the pool stays empty. *)
Theorem next_round_robin_empty (random : list nat) (w : World) :
  _instances w = [] →
  load_balance_method w = "round_robin" →
  rotate 1 (_instances w) = []
  ∧ (next random w).1 = Normal None
  ∧ _instances (next random w).2 = [].
Proof.
  intros Hi Hm. rewrite next_round_robin by done.
  rewrite Hi, rotate_nil. split; [done|]. split; [done|].
  destruct w; simpl in *. by rewrite Hi, rotate_nil.
Qed.

Lemma next_round_robin_empty_witness :
  rotate 1 (_instances (Sample.empty "round_robin")) = []
  ∧ (next [] (Sample.empty "round_robin")).1 = Normal None
  ∧ _instances (next [] (Sample.empty "round_robin")).2 = [].
Proof.
  apply (next_round_robin_empty [] (Sample.empty "round_robin")); reflexivity.
Defined.

(** ** Creation *)

(** Two worlds with the same fields are the same world. *)
Lemma world_eq (w1 w2 : World) :
  _instances w1 = _instances w2 →
  _weighted_list w1 = _weighted_list w2 →
  _default_tor_config w1 = _default_tor_config w2 →
  data_directory w1 = data_directory w2 →
  load_balance_method w1 = load_balance_method w2 →
  definitions w1 = definitions w2 →
  configs w1 = configs w2 →
  directories w1 = directories w2 →
  constructed w1 = constructed w2 →
  emitted w1 = emitted w2 →
  w1 = w2.
Proof. destruct w1, w2; simpl; intros; congruence. Qed.

(** Reads of a field through the setters, and nothing else. *)
Tactic Notation "cbn_world" :=
  cbn [fst snd _instances _weighted_list _default_tor_config data_directory
       load_balance_method definitions configs directories constructed
       emitted set_constructed set_configs set_definitions set_weighted_list
       set_directories set_instances set_load_balance_method
       set_default_tor_config emit].

Tactic Notation "cbn_world" "in" hyp(H) :=
  cbn [fst snd _instances _weighted_list _default_tor_config data_directory
       load_balance_method definitions configs directories constructed
       emitted set_constructed set_configs set_definitions set_weighted_list
       set_directories set_instances set_load_balance_method
       set_default_tor_config emit] in H.

Lemma default_tor_config_eq (w : World) :
  default_tor_config w =
    (default_copy w,
     set_configs (λ _, <[default_copy w := default_content w]> (configs w)) w).
Proof.
  unfold default_tor_config, default_content, default_copy, cloneDeep, alloc.
  destruct (_default_tor_config w); reflexivity.
Qed.

Lemma default_copy_fresh (w : World) : configs w !! default_copy w = None.
Proof. unfold default_copy. apply not_elem_of_dom, is_fresh. Qed.

Lemma effective_object_fresh (w : World) :
  configs w !! effective_object w = None
  ∧ effective_object w ≠ default_copy w.
Proof.
  pose proof (is_fresh
    (dom (<[default_copy w := default_content w]> (configs w)))) as Hf.
  fold (effective_object w) in Hf. rewrite dom_insert in Hf.
  split; [apply not_elem_of_dom|]; set_solver.
Qed.

Lemma override_content_allocated (w : World) (def : InstanceDefinition)
    (heap : gmap loc config_object) :
  well_formed_definition w def →
  (∀ l, is_Some (configs w !! l) → heap !! l = configs w !! l) →
  match Config def with
  | Some c => default ∅ (heap !! c)
  | None => ∅
  end = override_content w def.
Proof.
  intros Hwf Hheap. unfold override_content.
  destruct (Config def) as [c|] eqn:Hc; [|done].
  rewrite Hheap; [done|by apply Hwf].
Qed.

Lemma ensure_data_directory_eq (w : World) :
  ensure_data_directory w
  = set_directories (λ ds, {[data_directory w]} ∪ ds) w.
Proof.
  unfold ensure_data_directory. destruct (decide _) as [Hd|]; [|done].
  apply world_eq; cbn_world; try reflexivity.
  apply leibniz_equiv. intros x. rewrite elem_of_union, elem_of_singleton.
  split; [by right|]. by intros [->|?].
Qed.

Section Creation.

Variable path_join : string → string → string.

(** [create_instance] in one piece. *)
Lemma create_instance_unfold (env : creation) (d : loc) (w : World) :
  create_instance path_join env d w =
    let w := ensure_data_directory w in
    match definitions w !! d with
    | None => (Abrupt TypeError, w)
    | Some def =>
        if name_taken w def
        then (Abrupt (already_exists (default EmptyString (Name def))), w)
        else
          let w := set_weighted_list None w in
          let '(object, w) := merge_config d def w in
          let w :=
            set_configs
              (alter (λ o, <["DataDirectory" :=
                               data_directory_of path_join w def (nanoid env)
                                 o]> o)
                 object) w in
          let instance :=
            {| handle := constructed w; id := nanoid env; definition := d |} in
          let w := set_constructed (S (constructed w)) w in
          match startup_outcome env with
          | create_rejects => (Abrupt HandleFailure, w)
          | signals_error =>
              (Abrupt HandleFailure, set_instances (λ arr, arr ++ [instance]) w)
          | signals_ready =>
              (Normal instance,
               emit instance (set_instances (λ arr, arr ++ [instance]) w))
          end
    end.
Proof.
  unfold create_instance, create_instance_start, create_instance_finish.
  cbv zeta.
  destruct (definitions (ensure_data_directory w) !! d) as [def|]; [|done].
  destruct (name_taken (ensure_data_directory w) def); [done|].
  destruct (merge_config d def _) as [object w'].
  by destruct (startup_outcome env).
Qed.

Lemma merge_config_eq (d : loc) (def : InstanceDefinition) (w : World) :
  well_formed_definition w def →
  merge_config d def w =
    (effective_object w,
     set_definitions (alter (with_Config (Some (effective_object w))) d)
       (set_configs
          (λ _, <[effective_object w :=
                    Lodash.extend (default_content w)
                      (override_content w def)]>
                  (<[default_copy w := default_content w]> (configs w)))
          w)).
Proof.
  intros Hwf. unfold merge_config. rewrite default_tor_config_eq.
  unfold cloneDeep, alloc. cbn [configs set_configs].
  fold (effective_object w). rewrite lookup_insert_eq.
  cbn [default from_option].
  rewrite (override_content_allocated w def); [|done|].
  - f_equal. apply world_eq; cbn_world; try reflexivity.
    by rewrite alter_insert_eq.
  - intros l [o Hl]. destruct (effective_object_fresh w) as [Hf1 Hf2].
    pose proof (default_copy_fresh w) as Hf3.
    rewrite !lookup_insert_ne by congruence. reflexivity.
Qed.

(** A creation that gets past the name check, whatever the handle does
    afterwards. *)
Lemma create_instance_passed (env : creation) (d : loc)
    (def : InstanceDefinition) (w : World) :
  definitions w !! d = Some def →
  name_taken w def = false →
  well_formed_definition w def →
  create_instance path_join env d w =
    (match startup_outcome env with
     | signals_ready =>
         Normal {| handle := constructed w; id := nanoid env;
                   definition := d |}
     | _ => Abrupt HandleFailure
     end, created path_join env d def w).
Proof.
  intros Hd Hn Hwf. rewrite create_instance_unfold. cbv zeta.
  rewrite ensure_data_directory_eq.
  change (definitions (set_directories _ w)) with (definitions w).
  rewrite Hd.
  change (name_taken (set_directories _ w) def) with (name_taken w def).
  rewrite Hn, merge_config_eq by done.
  unfold created, effective_config, data_directory_of.
  destruct (startup_outcome env); f_equal; apply world_eq; cbn_world;
    rewrite ?alter_insert_eq; reflexivity.
Qed.

Lemma merge_config_frame (d : loc) (def : InstanceDefinition) (w : World) :
  let r := merge_config d def w in
  _instances r.2 = _instances w
  ∧ _weighted_list r.2 = _weighted_list w
  ∧ constructed r.2 = constructed w
  ∧ emitted r.2 = emitted w.
Proof.
  unfold merge_config. rewrite default_tor_config_eq.
  unfold cloneDeep, alloc. cbn_world. done.
Qed.

(** The same, for the pool alone: no assumption on the heap is needed. *)
Lemma create_instance_pool (env : creation) (d : loc)
    (def : InstanceDefinition) (w : World) :
  definitions w !! d = Some def →
  name_taken w def = false →
  let instance :=
    {| handle := constructed w; id := nanoid env; definition := d |} in
  let r := create_instance path_join env d w in
  r.1 = match startup_outcome env with
        | signals_ready => Normal instance
        | _ => Abrupt HandleFailure
        end
  ∧ _instances r.2 = match startup_outcome env with
                     | create_rejects => _instances w
                     | _ => _instances w ++ [instance]
                     end
  ∧ _weighted_list r.2 = None
  ∧ emitted r.2 = match startup_outcome env with
                  | signals_ready => emitted w ++ [instance]
                  | _ => emitted w
                  end.
Proof.
  intros Hd Hn. cbv zeta. rewrite create_instance_unfold. cbv zeta.
  rewrite ensure_data_directory_eq.
  change (definitions (set_directories _ w)) with (definitions w).
  rewrite Hd.
  change (name_taken (set_directories _ w) def) with (name_taken w def).
  rewrite Hn.
  pose proof (merge_config_frame d def
                (set_weighted_list None
                   (set_directories (λ ds, {[data_directory w]} ∪ ds) w)))
    as (Hi & Hc & Hn' & He).
  destruct (merge_config _ _ _) as [object w'].
  cbn_world in Hi. cbn_world in Hc. cbn_world in Hn'. cbn_world in He.
  destruct (startup_outcome env); cbn_world;
    rewrite ?Hi, ?Hc, ?Hn', ?He; done.
Qed.

End Creation.

Lemma indexOf_ge {A} `{EqDecision A} (x : A) (arr : list A) :
  -1 ≤ indexOf x arr.
Proof.
  induction arr as [|y arr IH]; simpl; [lia|].
  repeat case_decide; lia.
Qed.

Lemma indexOf_elem_of {A} `{EqDecision A} (x : A) (arr : list A) :
  indexOf x arr ≠ -1 ↔ x ∈ arr.
Proof.
  induction arr as [|y arr IH]; simpl.
  - split; [done|]. by intros ?%elem_of_nil.
  - rewrite elem_of_cons. pose proof (indexOf_ge x arr) as Hge.
    destruct (decide (y = x)) as [->|Hne].
    + split; [auto|done].
    + destruct (decide (indexOf x arr = -1)) as [Heq|Hneq].
      * split; [done|]. intros [->|Hin]; [done|]. by apply IH in Hin.
      * split; [intros _; right; by apply IH|intros _; lia].
Qed.

(** An instance that has a name has a truthy one. *)
Lemma instance_name_truthy (w : World) (i : TorProcess) (n : string) :
  instance_name w i = Some n → n ≠ EmptyString.
Proof.
  unfold instance_name. destruct (definitions w !! definition i) as [d|]; [|done].
  simpl. destruct (Name d) as [s|] eqn:Hs; simpl; [|done].
  case_bool_decide; [|done]. by intros [= <-].
Qed.

Lemma name_taken_true (w : World) (def : InstanceDefinition) (n : string) :
  Name def = Some n → Some n ∈ instance_names w → name_taken w def = true.
Proof.
  intros Hn Hin. unfold name_taken. rewrite Hn.
  apply andb_true_iff. split.
  - apply list_elem_of_fmap in Hin as (i & Hi & _).
    symmetry in Hi. apply instance_name_truthy in Hi.
    simpl. by apply bool_decide_eq_true.
  - apply bool_decide_eq_true. by apply indexOf_elem_of.
Qed.

Section CreationClaims.

Variable path_join : string → string → string.

(** C1, amended: when a creation gets as far as starting its Instance
    Handle and the handle signals [error] instead of [ready], the
    [create_instance] call rejects and nothing is notified, but the instance
    is in the pool already: the sequence after the failed call is the
    sequence before it followed by the new instance.  The pool is left as
    it was when the handle's [create()] itself rejects. *)
Theorem create_instance_startup_failure (env : creation) (d : loc)
    (def : InstanceDefinition) (w : World) :
  definitions w !! d = Some def →
  name_taken w def = false →
  let r := create_instance path_join env d w in
  (startup_outcome env = signals_error →
     r.1 = Abrupt HandleFailure
     ∧ _instances r.2
       = _instances w
         ++ [{| handle := constructed w; id := nanoid env;
                definition := d |}]
     ∧ emitted r.2 = emitted w)
  ∧ (startup_outcome env = create_rejects →
       r.1 = Abrupt HandleFailure
       ∧ _instances r.2 = _instances w
       ∧ emitted r.2 = emitted w).
Proof.
  intros Hd Hn r.
  destruct (create_instance_pool path_join env d def w Hd Hn)
    as (Hr & Hi & _ & He).
  fold r in Hr, Hi, He.
  split; intros Ho; rewrite Ho in Hr, Hi, He; done.
Qed.

(** C3: creating from a definition whose name is that of an instance of the
    pool fails with the duplicate-name error before anything is allocated:
    the base directory has been seen to, and nothing else has changed; no
    handle has been constructed, no configuration object made, the
    definition is as it was, and so are the instances of the pool, their
    number and the cache.  Where the base directory is there already, as it
    is once an instance has been created, the world is as it was. *)
Theorem create_instance_duplicate_name (env : creation) (d : loc)
    (def : InstanceDefinition) (n : string) (w : World) :
  definitions w !! d = Some def →
  Name def = Some n →
  Some n ∈ instance_names w →
  let r := create_instance path_join env d w in
  r = (Abrupt (already_exists n), ensure_data_directory w)
  ∧ _instances r.2 = _instances w
  ∧ length (_instances r.2) = length (_instances w)
  ∧ constructed r.2 = constructed w
  ∧ configs r.2 = configs w
  ∧ definitions r.2 = definitions w
  ∧ _weighted_list r.2 = _weighted_list w
  ∧ emitted r.2 = emitted w
  ∧ (data_directory w ∈ directories w → r.2 = w).
Proof.
  intros Hd Hn Hin r.
  assert (r = (Abrupt (already_exists n), ensure_data_directory w)) as ->.
  { subst r. rewrite create_instance_unfold. cbv zeta.
    rewrite ensure_data_directory_eq.
    change (definitions (set_directories _ w)) with (definitions w).
    rewrite Hd.
    change (name_taken (set_directories _ w) def) with (name_taken w def).
    rewrite (name_taken_true w def n) by done. by rewrite Hn. }
  split; [done|]. cbn [snd].
  split; [by rewrite ensure_data_directory_eq|].
  split; [by rewrite ensure_data_directory_eq|].
  split; [by rewrite ensure_data_directory_eq|].
  split; [by rewrite ensure_data_directory_eq|].
  split; [by rewrite ensure_data_directory_eq|].
  split; [by rewrite ensure_data_directory_eq|].
  split; [by rewrite ensure_data_directory_eq|].
  intros Hdir. unfold ensure_data_directory. by rewrite decide_True.
Qed.

End CreationClaims.

(** C1, as the claim has it: the pool would be as before.  The handle of D
    signals [error], the call rejects, and D is in the pool. *)
Lemma create_instance_startup_failure_stays_in_pool :
  let w := Sample.abc "round_robin" in
  let r := create_instance Sample.path_join Sample.fails 4 w in
  startup_outcome Sample.fails = signals_error
  ∧ r.1 = Abrupt HandleFailure
  ∧ _instances w = [Sample.A; Sample.B; Sample.C]
  ∧ _instances r.2
    = [Sample.A; Sample.B; Sample.C;
       {| handle := 3; id := "d"; definition := 4 |}]
  ∧ _instances r.2 ≠ _instances w.
Proof. vm_compute. repeat split; congruence. Qed.

Lemma create_instance_startup_failure_witness :
  let w := Sample.abc "round_robin" in
  let r := create_instance Sample.path_join Sample.fails 4 w in
  (startup_outcome Sample.fails = signals_error →
     r.1 = Abrupt HandleFailure
     ∧ _instances r.2
       = _instances w
         ++ [{| handle := constructed w; id := nanoid Sample.fails;
                definition := 4 |}]
     ∧ emitted r.2 = emitted w)
  ∧ (startup_outcome Sample.fails = create_rejects →
       r.1 = Abrupt HandleFailure
       ∧ _instances r.2 = _instances w
       ∧ emitted r.2 = emitted w).
Proof.
  apply (create_instance_startup_failure Sample.path_join Sample.fails 4
           (Sample.def "D" []) (Sample.abc "round_robin"));
    vm_compute; reflexivity.
Defined.

Lemma create_instance_duplicate_name_witness :
  let w := Sample.abc "round_robin" in
  let r := create_instance Sample.path_join Sample.succeeds 2 w in
  r = (Abrupt (already_exists "B"), ensure_data_directory w)
  ∧ _instances r.2 = _instances w
  ∧ length (_instances r.2) = length (_instances w)
  ∧ constructed r.2 = constructed w
  ∧ configs r.2 = configs w
  ∧ definitions r.2 = definitions w
  ∧ _weighted_list r.2 = _weighted_list w
  ∧ emitted r.2 = emitted w
  ∧ (data_directory w ∈ directories w → r.2 = w).
Proof.
  apply (create_instance_duplicate_name Sample.path_join Sample.succeeds 2
           (Sample.def "B" []) "B" (Sample.abc "round_robin")).
  - vm_compute; reflexivity.
  - reflexivity.
  - compute_done.
Defined.

(** ** Removal by name *)

Lemma instance_by_name_None (w : World) (name : string) :
  Some name ∉ instance_names w → instance_by_name w (Some name) = None.
Proof.
  intros Hn. unfold instance_by_name.
  destruct (filter _ (_instances w)) as [|i l] eqn:Hf; [done|].
  exfalso. apply Hn.
  assert (i ∈ filter (λ i, instance_name w i = Some name) (_instances w))
    as [Hi ?]%list_elem_of_filter by (rewrite Hf; left).
  unfold instance_names, instances. rewrite <- Hi.
  by apply list_elem_of_fmap_2.
Qed.

(** An unknown name: the call rejects, by way of the unbound [name], and the
    world is as it was. *)
Lemma remove_by_name_unknown (exit_of : exits) (name : string) (w : World) :
  Some name ∉ instance_names w →
  remove_by_name exit_of name w = (Abrupt (ReferenceError "name"), w).
Proof.
  intros Hn. unfold remove_by_name. by rewrite instance_by_name_None.
Qed.

(** C8: on the pool [A, B, C], [remove_by_name] of the unknown name Z does
    reject and does leave the pool as it was, but what it rejects with is the
    ReferenceError raised by the unbound [name] of line 300, not the
    not-found error the line was building. *)
Theorem remove_by_name_unknown_rejects_with_ReferenceError :
  let w := Sample.abc "round_robin" in
  (Some "Z" ∉ instance_names w)
  ∧ remove_by_name Sample.all_exit "Z" w = (Abrupt (ReferenceError "name"), w)
  ∧ (remove_by_name Sample.all_exit "Z" w).1 ≠ Abrupt (not_found "Z").
Proof.
  cbv zeta. split; [|split].
  - compute_done.
  - apply remove_by_name_unknown. compute_done.
  - rewrite remove_by_name_unknown.
    + discriminate.
    + compute_done.
Qed.

(** ** Group labels *)

Section uniq.
Context {A : Type} `{EqDecision A}.
Implicit Types (seen array : list A) (x : A).

Lemma uniq_from_elem_of seen array x :
  x ∈ Lodash.uniq_from seen array ↔ x ∈ array ∧ x ∉ seen.
Proof.
  revert seen. induction array as [|y array IH]; intros seen; simpl.
  - split; [by intros ?%elem_of_nil|by intros [?%elem_of_nil _]].
  - destruct (decide (y ∈ seen)) as [Hy|Hy].
    + rewrite IH, elem_of_cons. split; [tauto|].
      intros [[->|?] ?]; tauto.
    + rewrite !elem_of_cons, IH, elem_of_cons.
      destruct (decide (x = y)) as [->|]; tauto.
Qed.

Lemma uniq_from_NoDup seen array : NoDup (Lodash.uniq_from seen array).
Proof.
  revert seen. induction array as [|y array IH]; intros seen; simpl.
  - constructor.
  - destruct (decide (y ∈ seen)); [apply IH|].
    constructor; [|apply IH].
    rewrite uniq_from_elem_of, elem_of_cons. tauto.
Qed.

(** A value already seen, or already in the array, adds nothing. *)
Lemma uniq_from_snoc seen array x :
  x ∈ seen ∨ x ∈ array →
  Lodash.uniq_from seen (array ++ [x]) = Lodash.uniq_from seen array.
Proof.
  revert seen. induction array as [|y array IH]; intros seen Hx; simpl.
  - destruct Hx as [Hx|?%elem_of_nil]; [|done]. by rewrite decide_True.
  - destruct (decide (y ∈ seen)) as [Hy|Hy].
    + apply IH. rewrite elem_of_cons in Hx.
      destruct Hx as [?|[->|?]]; auto.
    + f_equal. apply IH. rewrite !elem_of_cons in *.
      destruct Hx as [?|[->|?]]; auto.
Qed.

Lemma uniq_from_id seen array :
  NoDup array → (∀ x, x ∈ array → x ∉ seen) →
  Lodash.uniq_from seen array = array.
Proof.
  revert seen. induction array as [|y array IH]; intros seen Hnd Hs; [done|].
  simpl. apply NoDup_cons in Hnd as [Hy Hnd].
  rewrite decide_False by (apply Hs; left). f_equal.
  apply IH; [done|]. intros x Hx. rewrite elem_of_cons.
  intros [->|?]; [done|]. apply (Hs x); [by right|done].
Qed.

Lemma union_singleton_elem_of array x : x ∈ Lodash.union array [x].
Proof.
  unfold Lodash.union, Lodash.uniq. rewrite uniq_from_elem_of, elem_of_app.
  split; [right; left|by intros ?%elem_of_nil].
Qed.

Lemma union_singleton_idemp array x :
  Lodash.union (Lodash.union array [x]) [x] = Lodash.union array [x].
Proof.
  unfold Lodash.union at 1. unfold Lodash.uniq.
  rewrite uniq_from_snoc by (right; apply union_singleton_elem_of).
  apply uniq_from_id; [apply uniq_from_NoDup|].
  intros ? _ ?%elem_of_nil. done.
Qed.

Lemma filter_eq_absent array x :
  x ∉ array → filter (λ y, y = x) array = [].
Proof.
  induction array as [|y array IH]; [done|].
  rewrite not_elem_of_cons, filter_cons. intros [Hxy Hx].
  rewrite decide_False by congruence. by apply IH.
Qed.

(** A value of a duplicate-free array is in it exactly once. *)
Lemma NoDup_occurs_once array x :
  NoDup array → x ∈ array → length (filter (λ y, y = x) array) = 1%nat.
Proof.
  induction 1 as [|y array Hy Hnd IH]; [by intros ?%elem_of_nil|].
  rewrite elem_of_cons, filter_cons. intros [->|Hx].
  - rewrite decide_True by done. by rewrite filter_eq_absent.
  - rewrite decide_False by (intros ->; done). by apply IH.
Qed.

Lemma remove_absent array x :
  x ∉ array → Lodash.remove (λ y, bool_decide (y = x)) array = array.
Proof.
  induction array as [|y array IH]; [done|].
  rewrite not_elem_of_cons. intros [Hxy Hx]. simpl.
  rewrite bool_decide_eq_false_2 by congruence. simpl. f_equal. by apply IH.
Qed.

End uniq.

Lemma with_Group_id (d : InstanceDefinition) : with_Group (Group d) d = d.
Proof. by destruct d. Qed.

Lemma instance_group_lookup (w : World) (i : TorProcess)
    (d : InstanceDefinition) :
  definitions w !! definition i = Some d → instance_group w i = Group d.
Proof. intros Hd. unfold instance_group. by rewrite Hd. Qed.

Lemma add_instance_to_group_lookup (w : World) (L : string) (i : TorProcess)
    (d : InstanceDefinition) :
  definitions w !! definition i = Some d →
  definitions (add_instance_to_group L i w) !! definition i
  = Some (with_Group (Lodash.union (Group d) [L]) d).
Proof.
  intros Hd. unfold add_instance_to_group. cbn [definitions set_definitions].
  rewrite lookup_alter_eq, Hd. simpl. by rewrite (instance_group_lookup w i d).
Qed.

Lemma add_instance_to_group_idemp (w : World) (L : string) (i : TorProcess) :
  is_Some (definitions w !! definition i) →
  add_instance_to_group L i (add_instance_to_group L i w)
  = add_instance_to_group L i w.
Proof.
  intros [d Hd].
  pose proof (add_instance_to_group_lookup w L i d Hd) as Hd1.
  unfold add_instance_to_group at 1.
  rewrite (instance_group_lookup _ i _ Hd1). cbn [Group with_Group].
  rewrite union_singleton_idemp.
  unfold add_instance_to_group. rewrite (instance_group_lookup w i d Hd).
  apply world_eq; cbn_world; try reflexivity.
  rewrite alter_alter_eq. apply alter_ext. intros [] _. reflexivity.
Qed.

Lemma remove_instance_from_group_absent (w : World) (L : string)
    (i : TorProcess) :
  L ∉ instance_group w i → remove_instance_from_group L i w = w.
Proof.
  intros HL. unfold remove_instance_from_group.
  apply world_eq; cbn_world; try reflexivity.
  apply alter_id. intros d Hd.
  rewrite (instance_group_lookup _ i d Hd) in HL.
  rewrite remove_absent by done. apply with_Group_id.
Qed.

(** C7: adding a label twice through the group view's [add] leaves the label
    exactly once in the label set of the instance (the second [add] changes
    nothing at all), and removing a label the instance does not carry,
    through [remove] or [remove_by_name], completes normally and changes
    nothing. *)
Theorem group_add_idempotent_remove_absent (w : World) (L : string)
    (i : TorProcess) :
  is_Some (definitions w !! definition i) →
  let once := view_add (groups w L) i w in
  let twice := view_add (groups once L) i once in
  length (filter (λ g, g = L) (instance_group once i)) = 1%nat
  ∧ length (filter (λ g, g = L) (instance_group twice i)) = 1%nat
  ∧ twice = once
  ∧ (L ∉ instance_group w i →
       view_remove (groups w L) i w = w
       ∧ instance_group (view_remove (groups w L) i w) i = instance_group w i
       ∧ ∀ name, instance_by_name w (Some name) = Some i →
           view_remove_by_name (groups w L) name w = (Normal (), w)).
Proof.
  intros Hd once twice.
  assert (twice = once) as Htwice.
  { subst twice once. unfold view_add, groups, groups_get. cbn [group_name].
    by apply add_instance_to_group_idemp. }
  assert (length (filter (λ g, g = L) (instance_group once i)) = 1%nat)
    as Honce.
  { destruct Hd as [d Hd]. subst once. unfold view_add, groups, groups_get.
    cbn [group_name].
    rewrite (instance_group_lookup _ i _
               (add_instance_to_group_lookup w L i d Hd)).
    cbn [Group with_Group].
    apply NoDup_occurs_once; [apply uniq_from_NoDup|].
    apply union_singleton_elem_of. }
  split; [done|]. split; [by rewrite Htwice|]. split; [done|].
  intros HL. unfold view_remove, view_remove_by_name, groups, groups_get.
  cbn [group_name].
  rewrite remove_instance_from_group_absent by done.
  split; [done|]. split; [done|]. intros name Hname.
  unfold remove_instance_from_group_by_name. rewrite Hname.
  by rewrite remove_instance_from_group_absent.
Qed.

Lemma group_add_idempotent_remove_absent_witness :
  let w := Sample.abc "round_robin" in
  let once := view_add (groups w "h") Sample.A w in
  let twice := view_add (groups once "h") Sample.A once in
  length (filter (λ g, g = "h") (instance_group once Sample.A)) = 1%nat
  ∧ length (filter (λ g, g = "h") (instance_group twice Sample.A)) = 1%nat
  ∧ twice = once
  ∧ ("h" ∉ instance_group w Sample.A →
       view_remove (groups w "h") Sample.A w = w
       ∧ instance_group (view_remove (groups w "h") Sample.A w) Sample.A
         = instance_group w Sample.A
       ∧ ∀ name, instance_by_name w (Some name) = Some Sample.A →
           view_remove_by_name (groups w "h") name w = (Normal (), w)).
Proof.
  apply (group_add_idempotent_remove_absent (Sample.abc "round_robin") "h"
           Sample.A).
  vm_compute. eauto.
Defined.

(** ** Sorting and group views *)

Section sortBy.
Context {A B : Type} (le : B → B → bool) (iteratee : A → B).
Hypothesis le_total : ∀ a b, le a b = true ∨ le b a = true.
Hypothesis le_trans : ∀ a b c, le a b = true → le b c = true → le a c = true.

Let before (x y : A) : Prop := le (iteratee x) (iteratee y) = true.

Lemma insert_sorted_Permutation (x : A) (sorted : list A) :
  Lodash.insert_sorted le iteratee x sorted ≡ₚ x :: sorted.
Proof.
  induction sorted as [|y sorted IH]; simpl; [done|].
  destruct (le (iteratee x) (iteratee y)); [done|].
  rewrite IH. apply perm_swap.
Qed.

Lemma sortBy_Permutation (collection : list A) :
  Lodash.sortBy le iteratee collection ≡ₚ collection.
Proof.
  induction collection as [|x collection IH]; simpl; [done|].
  rewrite insert_sorted_Permutation. by rewrite IH.
Qed.

Lemma insert_sorted_StronglySorted (x : A) (sorted : list A) :
  StronglySorted before sorted →
  StronglySorted before (Lodash.insert_sorted le iteratee x sorted).
Proof.
  induction 1 as [|y sorted Hs IH Hy]; simpl.
  - repeat constructor.
  - destruct (le (iteratee x) (iteratee y)) eqn:Hxy.
    + constructor; [by constructor|].
      constructor; [done|].
      eapply Forall_impl; [exact Hy|]. intros z Hz. by eapply le_trans.
    + constructor; [done|].
      rewrite insert_sorted_Permutation. constructor; [|done].
      destruct (le_total (iteratee x) (iteratee y)); [congruence|done].
Qed.

Lemma sortBy_StronglySorted (collection : list A) :
  StronglySorted before (Lodash.sortBy le iteratee collection).
Proof.
  induction collection as [|x collection IH]; simpl; [constructor|].
  by apply insert_sorted_StronglySorted.
Qed.

End sortBy.

Lemma leb_total (a b : string) : String.leb a b = true ∨ String.leb b a = true.
Proof. apply String.leb_total. Qed.

Lemma leb_trans (a b c : string) :
  String.leb a b = true → String.leb b c = true → String.leb a c = true.
Proof.
  intros Hab Hbc. apply Is_true_true.
  apply (transitivity (R := String.le) (y := b)); by apply Is_true_true.
Qed.

Lemma name_le_total (a b : option string) :
  Lodash.name_le a b = true ∨ Lodash.name_le b a = true.
Proof. destruct a, b; simpl; auto using leb_total. Qed.

Lemma name_le_trans (a b c : option string) :
  Lodash.name_le a b = true → Lodash.name_le b c = true →
  Lodash.name_le a c = true.
Proof. destruct a, b, c; simpl; eauto using leb_trans; done. Qed.

Lemma filter_none {A} (P : A → Prop) `{∀ x, Decision (P x)} (l : list A) :
  (∀ x, x ∈ l → ¬ P x) → filter P l = [].
Proof.
  induction l as [|x l IH]; intros Hl; [done|].
  rewrite filter_cons, decide_False by (apply Hl; left).
  apply IH. intros y Hy. apply Hl. by right.
Qed.

Lemma elem_of_concat {A} (x : A) (ls : list (list A)) :
  x ∈ concat ls ↔ ∃ l, x ∈ l ∧ l ∈ ls.
Proof.
  induction ls as [|l ls IH]; simpl.
  - split; [by intros ?%elem_of_nil|by intros (? & _ & ?%elem_of_nil)].
  - rewrite elem_of_app, IH. split.
    + intros [?|(l' & ? & ?)]; [exists l|exists l']; split; try done;
        [left|by right].
    + intros (l' & Hx & [->|?]%elem_of_cons); [by left|right; eauto].
Qed.

(** The labels in use are the labels carried by the instances of the pool. *)
Lemma elem_of_group_names (w : World) (L : string) :
  L ∈ group_names w ↔ ∃ i, i ∈ _instances w ∧ L ∈ instance_group w i.
Proof.
  unfold group_names, instances. rewrite sortBy_Permutation.
  unfold Lodash.uniq, Lodash.flatten.
  rewrite uniq_from_elem_of, elem_of_concat. split.
  - intros [(l & HL & (i & -> & Hi)%list_elem_of_fmap) _]. eauto.
  - intros (i & Hi & HL). split; [|by intros ?%elem_of_nil].
    exists (instance_group w i). split; [done|]. by apply list_elem_of_fmap_2.
Qed.

(** What a read of [pool.groups[L]] holds, whether [L] is in use or not. *)
Lemma groups_instances (w : World) (L : string) :
  instances_in_group (groups w L)
  = Lodash.sortBy Lodash.name_le (instance_name w)
      (filter (λ i, L ∈ instance_group w i) (_instances w)).
Proof.
  unfold groups, groups_get. cbn [instances_in_group]. f_equal.
  destruct (decide (L ∈ group_names w)) as [HL|HL].
  - apply list_filter_iff. intros i. apply indexOf_elem_of.
  - symmetry. apply filter_none. intros i Hi HLi. apply HL.
    apply elem_of_group_names. eauto.
Qed.

Lemma remove_at_world (exit_of : exits) (index : nat) (w : World) :
  (remove_at exit_of (Z.of_nat index) w).2
  = set_instances (λ _, delete index (_instances w))
      (set_weighted_list None w).
Proof.
  unfold remove_at.
  assert (splice (Int (Z.of_nat index)) (Int 1) (_instances w)
          = (take 1 (drop index (_instances w)),
             delete index (_instances w))) as Hs.
  { unfold splice. cbn [to_integer].
    destruct (decide (Z.of_nat index < 0)) as [?|_]; [lia|].
    set (len := length (_instances w)).
    destruct (decide (index < len)%nat) as [Hlt|Hge].
    - replace (Z.min (Z.of_nat index) (Z.of_nat len)) with (Z.of_nat index)
        by lia.
      replace (Z.min (Z.max 1 0) (Z.of_nat len - Z.of_nat index)) with 1
        by lia.
      rewrite Nat2Z.id. change (Z.to_nat 1) with 1%nat.
      by rewrite delete_take_drop, Nat.add_1_r.
    - replace (Z.min (Z.of_nat index) (Z.of_nat len)) with (Z.of_nat len)
        by lia.
      replace (Z.min (Z.max 1 0) (Z.of_nat len - Z.of_nat len)) with 0
        by lia.
      rewrite Nat2Z.id. change (Z.to_nat 0) with 0%nat. subst len.
      rewrite Nat.add_0_r, drop_all, firstn_all, app_nil_r.
      rewrite (drop_ge _ index) by lia. f_equal.
      rewrite delete_take_drop, (take_ge _ index), (drop_ge _ (S index))
        by lia.
      by rewrite app_nil_r. }
  cbn [_instances set_weighted_list]. rewrite Hs.
  destruct (head _) as [i|]; [destruct (exit_of i)|]; reflexivity.
Qed.

(** In a sorted list, an element is related to every one after it. *)
Lemma StronglySorted_lookup_lt {A} (R : A → A → Prop) (l : list A)
    (j k : nat) (a b : A) :
  StronglySorted R l → (j < k)%nat → l !! j = Some a → l !! k = Some b →
  R a b.
Proof.
  intros Hs. revert j k.
  induction Hs as [|x l Hs IH Hall]; intros j k Hjk Hj Hk; [done|].
  destruct k as [|k]; [lia|]. destruct j as [|j]; simpl in *.
  - simplify_eq. rewrite Forall_forall in Hall.
    apply Hall. by eapply list_elem_of_lookup_2.
  - apply (IH j k); [lia|done..].
Qed.

(** Two positions of a part of a list are two positions of the list, in the
    same order. *)
Lemma sublist_lookup_lt {A} (l1 l2 : list A) (j k : nat) (a b : A) :
  l1 `sublist_of` l2 → (j < k)%nat → l1 !! j = Some a → l1 !! k = Some b →
  ∃ p q, (p < q)%nat ∧ l2 !! p = Some a ∧ l2 !! q = Some b.
Proof.
  intros Hs. revert j k.
  induction Hs as [|x l1 l2 Hs IH|x l1 l2 Hs IH]; intros j k Hjk Hj Hk.
  - done.
  - destruct k as [|k]; [lia|]. destruct j as [|j]; simpl in *.
    + simplify_eq. apply list_elem_of_lookup_2 in Hk.
      apply (sublist_subseteq _ _ Hs), list_elem_of_lookup_1 in Hk as [q Hq].
      exists 0%nat, (S q). split; [lia|done].
    + destruct (IH j k) as (p & q & Hpq & Hp & Hq); [lia|done..|].
      exists (S p), (S q). split; [lia|done].
  - destruct (IH j k) as (p & q & Hpq & Hp & Hq); [done..|].
    exists (S p), (S q). split; [lia|done].
Qed.

Section stable.

Context {A B : Type} (le : B → B → bool) (iteratee : A → B).

(** Where two positions of [insert_sorted x sorted] come from. *)
Lemma insert_sorted_lookup_lt (x : A) (sorted : list A) (j k : nat)
    (a b : A) :
  (j < k)%nat →
  Lodash.insert_sorted le iteratee x sorted !! j = Some a →
  Lodash.insert_sorted le iteratee x sorted !! k = Some b →
  (∃ j' k', (j' < k')%nat ∧ sorted !! j' = Some a ∧ sorted !! k' = Some b)
  ∨ (a = x ∧ b ∈ sorted)
  ∨ (b = x ∧ le (iteratee x) (iteratee a) = false).
Proof.
  revert j k. induction sorted as [|y sorted IH]; intros j k Hjk Hj Hk.
  - simpl in *. destruct k as [|k]; [lia|]. done.
  - simpl in *. destruct (le (iteratee x) (iteratee y)) eqn:Hle.
    + destruct k as [|k]; [lia|]. destruct j as [|j]; simpl in *.
      * simplify_eq. right. left. split; [done|].
        by eapply list_elem_of_lookup_2.
      * left. exists j, k. split; [lia|done].
    + destruct k as [|k]; [lia|]. destruct j as [|j]; simpl in *.
      * simplify_eq. apply list_elem_of_lookup_2 in Hk.
        rewrite insert_sorted_Permutation in Hk.
        apply elem_of_cons in Hk as [->|Hb]; [by right; right|].
        apply list_elem_of_lookup_1 in Hb as [q Hq].
        left. exists 0%nat, (S q). split; [lia|done].
      * destruct (IH j k) as [(j' & k' & ? & ? & ?)|[[-> Hb]|[-> Hx]]];
          [lia|done..| | |].
        -- left. exists (S j'), (S k'). split; [lia|done].
        -- right. left. split; [done|]. by apply elem_of_cons; right.
        -- by right; right.
Qed.

(** [sortBy] is stable: of two elements, the one the order does not put
    first comes first only when it came first in the collection. *)
Lemma sortBy_stable (collection : list A) (j k : nat) (a b : A) :
  (j < k)%nat →
  Lodash.sortBy le iteratee collection !! j = Some a →
  Lodash.sortBy le iteratee collection !! k = Some b →
  le (iteratee b) (iteratee a) = true →
  ∃ p q, (p < q)%nat ∧ collection !! p = Some a ∧ collection !! q = Some b.
Proof.
  revert j k. induction collection as [|x collection IH];
    intros j k Hjk Hj Hk Hle; [done|].
  simpl in Hj, Hk.
  destruct (insert_sorted_lookup_lt x _ j k a b Hjk Hj Hk)
    as [(j' & k' & ? & ? & ?)|[[-> Hb]|[-> Hx]]].
  - destruct (IH j' k') as (p & q & ? & ? & ?); [done..|].
    exists (S p), (S q). split; [lia|done].
  - rewrite sortBy_Permutation in Hb.
    apply list_elem_of_lookup_1 in Hb as [q Hq].
    exists 0%nat, (S q). split; [lia|done].
  - congruence.
Qed.

End stable.

(** C6: a read of the group view for a label [L] holds exactly the instances
    now in the pool whose label set contains [L] (none when no instance
    carries [L]), sorted by name: of two instances with a name, the one whose
    name comes first in the order of [String.leb] comes first, the instances
    without a name come after all the others, and instances whose names are
    the same keep the order they have in the pool.  The view is computed from
    the pool as it is at the time of the read, so an instance that is not in
    the pool, such as one just removed from it, is in no view read
    afterwards. *)
Theorem group_view_live (w : World) (L : string) :
  let carries := λ i, L ∈ instance_group w i in
  let view := instances_in_group (groups w L) in
  view ≡ₚ filter carries (_instances w)
  ∧ filter carries (_instances w) `sublist_of` _instances w
  ∧ StronglySorted
      (λ a b, Lodash.name_le (instance_name w a) (instance_name w b) = true)
      view
  ∧ view = Lodash.sortBy Lodash.name_le (instance_name w)
             (filter carries (_instances w))
  ∧ (∀ i, i ∈ view ↔ i ∈ _instances w ∧ L ∈ instance_group w i)
  ∧ ((∀ i, i ∈ _instances w → L ∉ instance_group w i) → view = [])
  ∧ (∀ i, i ∉ _instances w → i ∉ view)
  ∧ (∀ exit_of index i,
       NoDup (_instances w) → _instances w !! index = Some i →
       i ∉ instances_in_group
             (groups (remove_at exit_of (Z.of_nat index) w).2 L))
  ∧ (∀ j k a b x y,
       (j < k)%nat → view !! j = Some a → view !! k = Some b →
       instance_name w a = Some x → instance_name w b = Some y →
       String.leb x y = true)
  ∧ (∀ j k a b,
       (j < k)%nat → view !! j = Some a → view !! k = Some b →
       instance_name w a = None → instance_name w b = None)
  ∧ (∀ j k a b,
       (j < k)%nat → view !! j = Some a → view !! k = Some b →
       instance_name w a = instance_name w b →
       ∃ p q, (p < q)%nat
              ∧ _instances w !! p = Some a ∧ _instances w !! q = Some b).
Proof.
  intros carries view.
  assert (view ≡ₚ filter carries (_instances w)) as Hperm.
  { subst view. rewrite groups_instances. apply sortBy_Permutation. }
  assert (∀ w' i, i ∈ instances_in_group (groups w' L) → i ∈ _instances w')
    as Hin.
  { intros w' i. rewrite groups_instances, sortBy_Permutation.
    by intros [_ ?]%list_elem_of_filter. }
  assert (StronglySorted
            (λ a b, Lodash.name_le (instance_name w a) (instance_name w b)
                    = true) view) as Hsorted.
  { subst view. rewrite groups_instances.
    apply (sortBy_StronglySorted _ _ name_le_total name_le_trans). }
  split; [done|]. split; [apply sublist_filter|]. split; [done|].
  split; [apply groups_instances|]. split.
  { intros i. rewrite Hperm, list_elem_of_filter. subst carries. tauto. }
  split.
  { intros Hnone. subst view. rewrite groups_instances.
    rewrite filter_none; [done|]. intros i Hi. by apply Hnone. }
  split; [intros i Hi Hv; by apply Hi, Hin|].
  split.
  { intros exit_of index i Hnd Hi Hv. apply Hin in Hv.
    rewrite remove_at_world in Hv. cbn [_instances set_instances] in Hv.
    apply delete_Permutation in Hi. rewrite Hi in Hnd.
    by apply NoDup_cons in Hnd as [? _]. }
  split.
  { intros j k a b x y Hjk Hj Hk Ha Hb.
    pose proof (StronglySorted_lookup_lt _ _ j k a b Hsorted Hjk Hj Hk) as Hle.
    simpl in Hle. by rewrite Ha, Hb in Hle. }
  split.
  { intros j k a b Hjk Hj Hk Ha.
    pose proof (StronglySorted_lookup_lt _ _ j k a b Hsorted Hjk Hj Hk) as Hle.
    simpl in Hle. rewrite Ha in Hle. by destruct (instance_name w b). }
  intros j k a b Hjk Hj Hk Hname.
  subst view. rewrite groups_instances in Hj, Hk.
  destruct (sortBy_stable Lodash.name_le (instance_name w) _ j k a b Hjk Hj Hk)
    as (p & q & Hpq & Hp & Hq).
  { rewrite Hname. by destruct (name_le_total (instance_name w b)
                                  (instance_name w b)). }
  exact (sublist_lookup_lt _ _ p q a b (sublist_filter _ _) Hpq Hp Hq).
Qed.

Lemma group_view_live_witness :
  let w := set_instances (λ _, [Sample.C; Sample.A; Sample.B])
             (Sample.abc "round_robin") in
  instances_in_group (groups w "g") = [Sample.A; Sample.C]
  ∧ (Sample.B ∉ instances_in_group (groups (Sample.abc "round_robin") "g"))
  ∧ Sample.A ∉ instances_in_group
                 (groups (remove_at Sample.all_exit (Z.of_nat 0)
                            (Sample.abc "round_robin")).2 "g").
Proof.
  split; [|split].
  - destruct (group_view_live
                (set_instances (λ _, [Sample.C; Sample.A; Sample.B])
                   (Sample.abc "round_robin")) "g")
      as (Hperm & _ & _ & _ & _ & _ & _ & _ & Horder & _).
    apply Permutation_sym, Permutation_length_2_inv in Hperm
      as [Hview|Hview]; [|exact Hview].
    rewrite Hview in Horder.
    by specialize (Horder 0%nat 1%nat Sample.C Sample.A "C" "A"
                     ltac:(lia) eq_refl eq_refl eq_refl eq_refl).
  - destruct (group_view_live (Sample.abc "round_robin") "g")
      as (_ & _ & _ & _ & Hiff & _).
    intros [_ Hg]%Hiff. revert Hg. compute_done.
  - destruct (group_view_live (Sample.abc "round_robin") "g")
      as (_ & _ & _ & _ & _ & _ & _ & Hgone & _).
    apply (Hgone Sample.all_exit 0%nat Sample.A); [|reflexivity].
    compute_done.
Defined.

(** ** The effective configuration *)

Lemma extend_lookup (object source : gmap string json) (k : string) :
  Lodash.extend object source !! k
  = match source !! k with
    | Some v => Some v
    | None => object !! k
    end.
Proof.
  unfold Lodash.extend. rewrite lookup_union.
  destruct (source !! k), (object !! k); reflexivity.
Qed.

Section Configuration.

Variable path_join : string → string → string.

(** Whatever the definition refers to, line 239 writes to the two objects
    it has just made and to no other. *)
Lemma merge_config_configs (d : loc) (def : InstanceDefinition) (w : World) :
  (merge_config d def w).1 = effective_object w
  ∧ ∃ o, configs (merge_config d def w).2
         = <[effective_object w := o]>
             (<[default_copy w := default_content w]> (configs w)).
Proof.
  unfold merge_config. rewrite default_tor_config_eq.
  unfold cloneDeep, alloc. cbn_world. fold (effective_object w).
  split; [done|]. rewrite alter_insert_eq. eauto.
Qed.

Lemma allocated_kept (w : World) (l : loc) (o : gmap string json) :
  is_Some (configs w !! l) →
  (<[effective_object w := o]>
     (<[default_copy w := default_content w]> (configs w))) !! l
  = configs w !! l.
Proof.
  intros [x Hl]. destruct (effective_object_fresh w) as [Hf1 _].
  pose proof (default_copy_fresh w) as Hf2.
  rewrite !lookup_insert_ne by congruence. reflexivity.
Qed.

(** No creation, failed or not, writes to an object that was on the heap
    before the call. *)
Lemma create_instance_preserves_objects (env : creation) (d : loc)
    (w : World) (l : loc) :
  is_Some (configs w !! l) →
  configs (create_instance path_join env d w).2 !! l = configs w !! l.
Proof.
  intros Hl. rewrite create_instance_unfold. cbv zeta.
  rewrite ensure_data_directory_eq.
  set (w1 := set_directories _ w).
  destruct (definitions w1 !! d) as [def|]; [|done].
  destruct (name_taken w1 def); [done|].
  destruct (merge_config_configs d def (set_weighted_list None w1))
    as (Hobj & o & Hcfg).
  destruct (merge_config _ _ _) as [object w2]. cbn [fst snd] in Hobj, Hcfg.
  assert (configs
            (set_configs
               (alter (λ o, <["DataDirectory" :=
                                data_directory_of path_join w2 def
                                  (nanoid env) o]> o) object) w2) !! l
          = configs w !! l) as Hkept.
  { cbn_world. rewrite Hcfg, Hobj.
    change (effective_object (set_weighted_list None w1))
      with (effective_object w).
    change (default_copy (set_weighted_list None w1)) with (default_copy w).
    change (default_content (set_weighted_list None w1))
      with (default_content w).
    change (configs (set_weighted_list None w1)) with (configs w).
    rewrite alter_insert_eq. by apply allocated_kept. }
  destruct (startup_outcome env); cbn_world; cbn_world in Hkept; exact Hkept.
Qed.

End Configuration.

Section ConfigurationClaims.

Variable path_join : string → string → string.

Lemma well_formed_not_fresh (w : World) (def : InstanceDefinition) :
  well_formed_definition w def → Config def ≠ Some (effective_object w).
Proof.
  intros Hwf Hc. apply Hwf in Hc as [o Ho].
  destruct (effective_object_fresh w) as [Hf _]. congruence.
Qed.

(** C4: the configuration that line 239 makes for a creation is a copy of
    the default, held by an object of its own, extended with the override of
    the definition: key by key, the value of the override when it has the
    key, otherwise the value of the default.  That is the configuration the
    instance is created with on every key but [DataDirectory], which line 241
    sees to.  No creation, whether it succeeds or not, writes to the default
    configuration object or to any other object that was there before it,
    nor does it change which default the pool holds. *)
Theorem create_instance_effective_config (env : creation) (d : loc)
    (def : InstanceDefinition) (w : World) :
  definitions w !! d = Some def →
  name_taken w def = false →
  well_formed_definition w def →
  let dflt := default_content w in
  let override := override_content w def in
  let merged :=
    merge_config d def (set_weighted_list None (ensure_data_directory w)) in
  let r := create_instance path_join env d w in
  configs merged.2 !! merged.1 = Some (Lodash.extend dflt override)
  ∧ (∀ k, Lodash.extend dflt override !! k
          = match override !! k with
            | Some v => Some v
            | None => dflt !! k
            end)
  ∧ configs w !! merged.1 = None
  ∧ (∃ cfg,
       definitions r.2 !! d = Some (with_Config (Some merged.1) def)
       ∧ configs r.2 !! merged.1 = Some cfg
       ∧ ∀ k, k ≠ "DataDirectory" →
           cfg !! k = match override !! k with
                      | Some v => Some v
                      | None => dflt !! k
                      end)
  ∧ (∀ env' d' l,
       is_Some (configs w !! l) →
       configs (create_instance path_join env' d' w).2 !! l = configs w !! l)
  ∧ (∀ l, _default_tor_config w = StaticDefault l →
       is_Some (configs w !! l) →
       l ≠ merged.1
       ∧ configs r.2 !! l = configs w !! l
       ∧ default_content r.2 = default_content w)
  ∧ _default_tor_config r.2 = _default_tor_config w.
Proof.
  intros Hd Hn Hwf dflt override merged r.
  assert (merged
          = (effective_object w,
             set_definitions
               (alter (with_Config (Some (effective_object w))) d)
               (set_configs
                  (λ _, <[effective_object w :=
                            Lodash.extend dflt override]>
                          (<[default_copy w := dflt]> (configs w)))
                  (set_weighted_list None (ensure_data_directory w)))))
    as Hmerged.
  { subst merged. rewrite ensure_data_directory_eq.
    by rewrite merge_config_eq. }
  assert (r.2 = created path_join env d def w) as Hr.
  { subst r. by rewrite (create_instance_passed path_join env d def w). }
  destruct (effective_object_fresh w) as [Hfresh _].
  rewrite Hmerged, Hr. cbn_world.
  split; [by rewrite lookup_insert_eq|].
  split; [intros k; apply extend_lookup|].
  split; [done|].
  split.
  { exists (effective_config path_join env w def).
    unfold created. cbn_world.
    rewrite lookup_alter_eq, Hd, lookup_insert_eq.
    split; [done|]. split; [done|]. intros k Hk.
    unfold effective_config. rewrite lookup_insert_ne by done.
    apply extend_lookup. }
  split.
  { intros env' d' l Hl. by apply create_instance_preserves_objects. }
  split; [|done].
  intros l Hs Hl.
  assert (configs (created path_join env d def w) !! l = configs w !! l)
    as Hkept.
  { unfold created. cbn_world. by apply allocated_kept. }
  split; [intros ->; destruct Hl; congruence|].
  split; [done|].
  unfold default_content. unfold created at 1. cbn_world.
  by rewrite Hs, Hkept.
Qed.

(** C9: [create_instance] writes to the definition object its caller
    passed: after the call the [Config] field of that definition refers to a
    new object, which was not on the heap before and is not the [Config] the
    caller gave, while [Name], [Weight] and [Group] are what they were.  The
    new object holds the merged effective configuration, with a
    [DataDirectory] key on it: a non-empty string that the merge brought
    under that key is kept (as is any other truthy value), and when the merge
    brought nothing, or an empty string, null, false or zero, the value is the
    path of the instance's name, or of its id when the name is undefined or
    empty, under the pool's data directory; so it is when the caller
    supplied none and the default has none either.  No other definition is
    written to. *)
Theorem create_instance_mutates_definition (env : creation) (d : loc)
    (def : InstanceDefinition) (w : World) :
  definitions w !! d = Some def →
  name_taken w def = false →
  well_formed_definition w def →
  let r := create_instance path_join env d w in
  let merged :=
    Lodash.extend (default_content w) (override_content w def) in
  let segment :=
    match Name def with
    | Some (String c name) => String c name
    | Some EmptyString | None => nanoid env
    end in
  let path := JStr (path_join (data_directory w) segment) in
  ∃ object cfg def',
    definitions r.2 !! d = Some def'
    ∧ Config def' = Some object
    ∧ Name def' = Name def
    ∧ Weight def' = Weight def
    ∧ Group def' = Group def
    ∧ Config def ≠ Some object
    ∧ configs w !! object = None
    ∧ configs r.2 !! object = Some cfg
    ∧ (∀ k, k ≠ "DataDirectory" → cfg !! k = merged !! k)
    ∧ cfg !! "DataDirectory"
      = Some match merged !! "DataDirectory" with
             | Some v => if truthy v then v else path
             | None => path
             end
    ∧ (∀ v, merged !! "DataDirectory" = Some v → truthy v = true →
         cfg !! "DataDirectory" = Some v)
    ∧ (∀ s, merged !! "DataDirectory" = Some (JStr s) → s ≠ EmptyString →
         cfg !! "DataDirectory" = Some (JStr s))
    ∧ (merged !! "DataDirectory" = None
       ∨ merged !! "DataDirectory" = Some (JStr EmptyString)
       ∨ merged !! "DataDirectory" = Some JNull
       ∨ merged !! "DataDirectory" = Some (JBool false)
       ∨ merged !! "DataDirectory" = Some (JNum 0) →
       cfg !! "DataDirectory" = Some path)
    ∧ (override_content w def !! "DataDirectory" = None →
       default_content w !! "DataDirectory" = None →
       cfg !! "DataDirectory" = Some path)
    ∧ (∀ d', d' ≠ d → definitions r.2 !! d' = definitions w !! d').
Proof.
  intros Hd Hn Hwf r merged segment path.
  assert (r.2 = created path_join env d def w) as Hr.
  { subst r. by rewrite (create_instance_passed path_join env d def w). }
  destruct (effective_object_fresh w) as [Hfresh _].
  assert (data_directory_of path_join w def (nanoid env) merged
          = match merged !! "DataDirectory" with
            | Some v => if truthy v then v else path
            | None => path
            end) as Hdir.
  { unfold data_directory_of. subst path segment.
    by destruct (Name def) as [[|c name]|]. }
  exists (effective_object w), (effective_config path_join env w def),
    (with_Config (Some (effective_object w)) def).
  rewrite Hr. unfold created. cbn_world.
  rewrite lookup_alter_eq, Hd, lookup_insert_eq.
  split; [done|]. do 4 (split; [done|]).
  split; [by apply well_formed_not_fresh|].
  split; [done|]. split; [done|].
  unfold effective_config. fold merged.
  split; [intros k Hk; by rewrite lookup_insert_ne|].
  rewrite lookup_insert_eq, Hdir.
  split; [done|]. split; [by intros v -> ->|].
  split.
  { intros s -> Hs. simpl. by rewrite ?bool_decide_eq_true_2 by done. }
  split; [by intros [->|[->|[->|[->| ->]]]]|].
  split.
  - intros Ho Hdf.
    assert (merged !! "DataDirectory" = None) as ->; [|done].
    subst merged. by rewrite extend_lookup, Ho.
  - intros d' Hne. by rewrite lookup_alter_ne.
Qed.

End ConfigurationClaims.

Lemma sample_E_well_formed :
  well_formed_definition (Sample.abc "round_robin") Sample.E.
Proof. intros c [= <-]. vm_compute. eauto. Qed.

Lemma create_instance_effective_config_witness :
  let w := Sample.abc "round_robin" in
  let merged :=
    merge_config 5 Sample.E (set_weighted_list None (ensure_data_directory w)) in
  configs merged.2 !! merged.1
  = Some (Lodash.extend (default_content w) (override_content w Sample.E))
  ∧ configs (create_instance Sample.path_join Sample.succeeds 5 w).2 !! 1%positive
    = configs w !! 1%positive.
Proof.
  destruct (create_instance_effective_config Sample.path_join Sample.succeeds
              5 Sample.E (Sample.abc "round_robin"))
    as (Hmerged & _ & _ & _ & Hkept & _).
  - vm_compute; reflexivity.
  - vm_compute; reflexivity.
  - exact sample_E_well_formed.
  - split; [exact Hmerged|]. apply Hkept. vm_compute. eauto.
Defined.

Lemma create_instance_mutates_definition_witness :
  let w := Sample.abc "round_robin" in
  let r := create_instance Sample.path_join Sample.succeeds 5 w in
  ∃ object cfg def',
    definitions r.2 !! 5%positive = Some def'
    ∧ Config def' = Some object
    ∧ Config Sample.E ≠ Some object
    ∧ configs r.2 !! object = Some cfg
    ∧ cfg !! "Log" = Some (JStr "warn stdout")
    ∧ cfg !! "DataDirectory" = Some (JStr "/tmp/tor/d").
Proof.
  destruct (create_instance_mutates_definition Sample.path_join
              Sample.succeeds 5 Sample.E (Sample.abc "round_robin"))
    as (object & cfg & def' & Hd & Hconfig & _ & _ & _ & Hnew & _ & Hc
        & Hkeys & _ & _ & _ & _ & Hpath & _).
  - vm_compute; reflexivity.
  - vm_compute; reflexivity.
  - exact sample_E_well_formed.
  - exists object, cfg, def'.
    refine (conj Hd (conj Hconfig (conj Hnew (conj Hc (conj _ _))))).
    + rewrite Hkeys by done. vm_compute; reflexivity.
    + apply Hpath; vm_compute; reflexivity.
Defined.

(** ** The weighted cache *)

Lemma draw_Permutation (random : list nat) (entries : list wl_entry) :
  WeightedList.draw random (length entries) entries ≡ₚ entries.
Proof.
  remember (length entries) as n eqn:Hn.
  revert random entries Hn.
  induction n as [|n IH]; intros random entries Hn; simpl.
  - by destruct entries.
  - set (k := (hd 0 random `mod` length entries)%nat).
    assert (k < length entries)%nat as Hk.
    { subst k. apply Nat.mod_upper_bound. lia. }
    destruct (lookup_lt_is_Some_2 entries k Hk) as [e He].
    rewrite He. rewrite (delete_Permutation entries k e He) at 2.
    constructor. apply IH.
    rewrite length_delete by eauto. lia.
Qed.

Lemma peek_all (random : list nat) (wl : list wl_entry) (n : nat) :
  n = length wl →
  ∃ elements,
    WeightedList.peek random n wl = Some elements ∧ elements ≡ₚ wl.
Proof.
  intros ->. unfold WeightedList.peek.
  rewrite decide_True by done. eauto using draw_Permutation.
Qed.

Lemma weighted_entry_data (w : World) (arr : list TorProcess) :
  wl_data <$> (weighted_entry w <$> arr) = arr.
Proof.
  induction arr as [|i arr IH]; [done|].
  cbn [fmap list_fmap]. cbn [fmap] in IH. by rewrite IH.
Qed.


(** With a current cache, or none, the weighted method returns a permutation
    of the pool and leaves a current cache behind. *)
Lemma next_weighted (random : list nat) (w : World) :
  load_balance_method w = "weighted" →
  cache_current w →
  ∃ arr wl,
    next random w
    = (Normal (head arr),
       set_weighted_list (Some wl) (set_instances (λ _, arr) w))
    ∧ arr ≡ₚ _instances w
    ∧ wl_data <$> wl ≡ₚ _instances w.
Proof.
  intros Hm Hc. unfold next. rewrite Hm.
  rewrite decide_False by done. rewrite decide_True by done.
  unfold weighted. cbn [fst snd].
  set (cache := match _weighted_list w with
                | Some wl => wl
                | None => weighted_entry w <$> _instances w
                end).
  assert (wl_data <$> cache ≡ₚ _instances w) as Hcache.
  { subst cache. unfold cache_current in Hc.
    destruct (_weighted_list w); [done|]. by rewrite weighted_entry_data. }
  destruct (peek_all random cache (length (_instances w)))
    as (elements & -> & Hel).
  { by rewrite <- Hcache, length_fmap. }
  exists (wl_data <$> elements), cache. split; [done|].
  split; [by rewrite Hel|done].
Qed.

Section Cache.

Variable path_join : string → string → string.

(** What a creation does to the array and to its cache. *)
Lemma create_instance_cache (env : creation) (d : loc) (w : World) :
  let r := create_instance path_join env d w in
  _weighted_list r.2 = None
  ∨ (_weighted_list r.2 = _weighted_list w
     ∧ _instances r.2 = _instances w).
Proof.
  cbv zeta.
  destruct (definitions w !! d) as [def|] eqn:Hd.
  - destruct (name_taken w def) eqn:Hn.
    + right. rewrite create_instance_unfold. cbv zeta.
      rewrite ensure_data_directory_eq.
      change (definitions (set_directories _ w)) with (definitions w).
      rewrite Hd.
      change (name_taken (set_directories _ w) def) with (name_taken w def).
      by rewrite Hn.
    + left. by destruct (create_instance_pool path_join env d def w Hd Hn)
        as (_ & _ & ? & _).
  - right. rewrite create_instance_unfold. cbv zeta.
    rewrite ensure_data_directory_eq.
    change (definitions (set_directories _ w)) with (definitions w).
    by rewrite Hd.
Qed.

Lemma remove_world (exit_of : exits) (n : Z) (w : World) :
  (remove exit_of n w).2
  = set_instances (λ _, (splice (Int 0) (Int n) (_instances w)).2)
      (set_weighted_list None w).
Proof.
  unfold remove. cbn_world.
  destruct (splice _ _ _) as [removed rest].
  by destruct (forallb exit_of removed).
Qed.

Lemma remove_at_cache (exit_of : exits) (index : Z) (w : World) :
  _weighted_list (remove_at exit_of index w).2 = None.
Proof.
  unfold remove_at. cbn_world.
  destruct (splice _ _ _) as [removed rest].
  destruct (head removed) as [i|]; [destruct (exit_of i)|]; reflexivity.
Qed.

(** After a call that the pool offers for changing its membership, either
    the cache is gone or the array is what it was. *)
Lemma membership_operation_cache (c : call) (w : World) :
  membership_operation c = true →
  _weighted_list (run path_join c w) = None
  ∨ (_weighted_list (run path_join c w) = _weighted_list w
     ∧ _instances (run path_join c w) = _instances w).
Proof.
  destruct c; try discriminate; intros _; cbn [run].
  - apply create_instance_cache.
  - left. by rewrite remove_world.
  - left. apply remove_at_cache.
  - unfold remove_by_name.
    destruct (instance_by_name w _); [left; apply remove_at_cache|by right].
  - unfold exit. destruct (forallb _ _); [by left|by right].
Qed.

Lemma run_cache_current (c : call) (w : World) :
  cache_current w → cache_current (run path_join c w).
Proof.
  intros Hc.
  destruct (membership_operation c) eqn:Hop.
  - destruct (membership_operation_cache c w Hop) as [Hnone|[Hwl Hi]];
      unfold cache_current in *.
    + by rewrite Hnone.
    + by rewrite Hwl, Hi.
  - destruct c; try discriminate; cbn [run]; try exact Hc.
    unfold next.
    destruct (decide (load_balance_method w = "round_robin")) as [Hrr|Hrr].
    + unfold round_robin, cache_current in *. cbn_world.
      destruct (_weighted_list w); [|done].
      by rewrite rotate_Permutation.
    + destruct (decide (load_balance_method w = "weighted")) as [Hw|Hw];
        [|exact Hc].
      destruct (next_weighted random w Hw Hc) as (arr & wl & Hn & Ha & Hwl).
      unfold next in Hn. rewrite decide_False, decide_True in Hn by done.
      rewrite Hn. unfold cache_current. cbn_world. by rewrite Ha.
Qed.

Lemma reachable_cache_current (w : World) :
  reachable path_join w → cache_current w.
Proof.
  induction 1 as [| c w _ IH]; [exact I|]. by apply run_cache_current.
Qed.


End Cache.



(** * Further properties of the pool *)

(** ** Rotation *)

(** [((count % len) + len) % len] is the modulus of mathematics. *)
Lemma js_modulus (count len : Z) :
  0 < len →
  rem (add (rem (Int count) (Int len)) (Int len)) (Int len)
  = Int (count mod len).
Proof.
  intros Hlen. unfold rem at 2. rewrite decide_False by lia.
  unfold add, rem. rewrite decide_False by lia. f_equal.
  pose proof (Z.rem_bound_abs count len ltac:(lia)) as Hb.
  pose proof (Z.quot_rem' count len) as Hq.
  rewrite Z.rem_mod_nonneg by lia.
  replace (Z.rem count len + len)
    with (count + (1 - Z.quot count len) * len) by lia.
  apply Z.mod_add. lia.
Qed.

Lemma splice_front_Z {A} (k : Z) (arr : list A) :
  0 ≤ k ≤ Z.of_nat (length arr) →
  splice (Int 0) (Int k) arr = (take (Z.to_nat k) arr, drop (Z.to_nat k) arr).
Proof.
  intros Hk. rewrite <- (Z2Nat.id k) at 1 by lia.
  apply splice_front. lia.
Qed.

(** On a non-empty array, [rotate] splits the array at the modulus of the
    count and swaps the two parts. *)
Lemma rotate_drop_take {A} (count : Z) (arr : list A) :
  0 < Z.of_nat (length arr) < 2 ^ 32 →
  rotate count arr
  = drop (Z.to_nat (to_int32 count mod Z.of_nat (length arr))) arr
    ++ take (Z.to_nat (to_int32 count mod Z.of_nat (length arr))) arr.
Proof.
  intros Hlen.
  pose proof (Z.mod_pos_bound (to_int32 count) (Z.of_nat (length arr))
                ltac:(lia)) as Hk.
  unfold rotate. rewrite to_uint32_small by lia.
  rewrite js_modulus by lia. by rewrite splice_front_Z by lia.
Qed.

(** X1: on an array of n elements, 0 < n < 2^32, [rotate(count)] moves the
    first k elements to the end, k being the modulus in the mathematical
    sense of the count (read as a 32-bit integer) by n, so that a negative
    count rotates to the right; k is below n and the length is kept. *)
Theorem rotate_modulus {A} (count : Z) (arr : list A) :
  0 < Z.of_nat (length arr) < 2 ^ 32 →
  let k := Z.to_nat (to_int32 count mod Z.of_nat (length arr)) in
  rotate count arr = drop k arr ++ take k arr
  ∧ (k < length arr)%nat
  ∧ length (rotate count arr) = length arr.
Proof.
  intros Hlen k.
  pose proof (Z.mod_pos_bound (to_int32 count) (Z.of_nat (length arr))
                ltac:(lia)) as Hk.
  pose proof (rotate_drop_take count arr Hlen) as Hr. fold k in Hr.
  split; [done|]. split; [lia|].
  rewrite Hr, length_app, length_drop, length_take. lia.
Qed.

Lemma rotate_modulus_witness :
  rotate (-1) ["a"; "b"; "c"] = ["c"; "a"; "b"]
  ∧ rotate 7 ["a"; "b"; "c"] = ["b"; "c"; "a"].
Proof.
  split.
  - apply (rotate_modulus (-1) ["a"; "b"; "c"]). simpl. lia.
  - apply (rotate_modulus 7 ["a"; "b"; "c"]). simpl. lia.
Defined.

Lemma nonempty_snoc {A} (l : list A) : l ≠ [] → ∃ l' y, l = l' ++ [y].
Proof. induction l as [|y l' _] using rev_ind; [done|eauto]. Qed.

(** X2: rotating by one and rotating by minus one undo each other, in either
    order, on every array (the empty one included). *)
Theorem rotate_back_and_forth {A} (arr : list A) :
  Z.of_nat (length arr) < 2 ^ 32 →
  rotate (-1) (rotate 1 arr) = arr ∧ rotate 1 (rotate (-1) arr) = arr.
Proof.
  intros Hlen. destruct arr as [|x arr]; [by rewrite !rotate_nil|].
  assert (∀ l : list A,
            0 < Z.of_nat (length l) < 2 ^ 32 →
            Z.to_nat (to_int32 (-1) mod Z.of_nat (length l))
            = (length l - 1)%nat) as Hm1.
  { intros l Hl. change (to_int32 (-1)) with (-1).
    replace (-1 mod Z.of_nat (length l)) with (Z.of_nat (length l) - 1);
      [lia|].
    apply Z.mod_unique with (-1); lia. }
  split.
  - rewrite rotate_1_cons by done.
    rewrite rotate_drop_take by (rewrite length_app; simpl in *; lia).
    rewrite Hm1 by (rewrite length_app; simpl in *; lia).
    rewrite length_app. simpl.
    replace (length arr + 1 - 1)%nat with (length arr) by lia.
    by rewrite drop_app_length, take_app_length.
  - rewrite (rotate_drop_take (-1) (x :: arr)) by (simpl in *; lia).
    rewrite Hm1 by (simpl in *; lia).
    set (l := x :: arr) in *.
    assert (∃ l' y, l = l' ++ [y]) as (l' & y & Hsnoc).
    { apply nonempty_snoc. by subst l. }
    rewrite Hsnoc. rewrite length_app. simpl.
    replace (length l' + 1 - 1)%nat with (length l') by lia.
    rewrite drop_app_length, take_app_length. simpl.
    rewrite rotate_1_cons; [done|].
    rewrite Hsnoc, length_app in Hlen. simpl in *. lia.
Qed.

Lemma rotate_back_and_forth_witness :
  rotate (-1) (rotate 1 [Sample.A; Sample.B; Sample.C])
  = [Sample.A; Sample.B; Sample.C]
  ∧ rotate 1 (rotate (-1) [Sample.A; Sample.B; Sample.C])
    = [Sample.A; Sample.B; Sample.C].
Proof.
  apply (rotate_back_and_forth [Sample.A; Sample.B; Sample.C]). simpl. lia.
Defined.

(** ** Group names and lookup by name *)

(** X4: [group_names] is in ascending order, holds no label twice, and holds
    exactly the labels carried by some instance of the pool. *)
Theorem group_names_sorted_unique (w : World) :
  StronglySorted (λ a b, String.leb a b = true) (group_names w)
  ∧ NoDup (group_names w)
  ∧ ∀ L, L ∈ group_names w ↔ ∃ i, i ∈ _instances w ∧ L ∈ instance_group w i.
Proof.
  split; [|split].
  - unfold group_names.
    apply (sortBy_StronglySorted String.leb (λ label, label) leb_total leb_trans).
  - unfold group_names. rewrite sortBy_Permutation. apply uniq_from_NoDup.
  - apply elem_of_group_names.
Qed.

(** The head of a filtered list is the first element to pass the test. *)
Lemma head_filter_first {A} (P : A → Prop) `{∀ x, Decision (P x)}
    (l : list A) (x : A) :
  head (filter P l) = Some x ↔
  ∃ k, l !! k = Some x ∧ P x ∧ ∀ j y, (j < k)%nat → l !! j = Some y → ¬ P y.
Proof.
  induction l as [|y l IH].
  - split; [done|]. by intros (k & ? & _).
  - rewrite filter_cons. destruct (decide (P y)) as [Hy|Hy]; simpl.
    + split.
      * intros [= ->]. exists 0%nat. split; [done|]. split; [done|]. lia.
      * intros (k & Hk & Hx & Hfirst). destruct k as [|k]; [by simplify_eq/=|].
        exfalso. apply (Hfirst 0%nat y); [lia|done|done].
    + rewrite IH. split.
      * intros (k & Hk & Hx & Hfirst). exists (S k). split; [done|].
        split; [done|]. intros [|j] z Hj Hz; simplify_eq/=; [done|].
        apply (Hfirst j z); [lia|done].
      * intros (k & Hk & Hx & Hfirst). destruct k as [|k]; [by simplify_eq/=|].
        exists k. split; [done|]. split; [done|]. intros j z Hj Hz.
        apply (Hfirst (S j) z); [lia|done].
Qed.

Lemma head_filter_none {A} (P : A → Prop) `{∀ x, Decision (P x)} (l : list A) :
  head (filter P l) = None ↔ ∀ x, x ∈ l → ¬ P x.
Proof.
  split.
  - intros Hh x Hx HP. destruct (filter P l) as [|y l'] eqn:Hf; [|done].
    assert (x ∈ filter P l) as Hin by by apply list_elem_of_filter.
    rewrite Hf in Hin. by apply elem_of_nil in Hin.
  - intros Hnone. by rewrite filter_none.
Qed.

(** X5: [instance_by_name] returns the first instance, in pool order, whose
    name is the one asked for, and undefined exactly when no instance of the
    pool carries that name. *)
Theorem instance_by_name_first (w : World) (name : option string) :
  (∀ i, instance_by_name w name = Some i ↔
        ∃ k, _instances w !! k = Some i
             ∧ instance_name w i = name
             ∧ ∀ j i', (j < k)%nat → _instances w !! j = Some i' →
                 instance_name w i' ≠ name)
  ∧ (instance_by_name w name = None ↔ name ∉ instance_names w).
Proof.
  split.
  - intros i. apply (head_filter_first (λ i, instance_name w i = name)).
  - unfold instance_by_name.
    rewrite (head_filter_none (λ i, instance_name w i = name)).
    unfold instance_names, instances. rewrite list_elem_of_fmap. split.
    + intros Hnone (i & -> & Hi). by apply (Hnone i).
    + intros Hn i Hi Hname. apply Hn. eauto.
Qed.

(** ** Removal by position, by count and by name *)

Lemma splice_one {A} (index : Z) (arr : list A) :
  let p := splice_start index (length arr) in
  splice (Int index) (Int 1) arr = (take 1 (drop p arr), delete p arr).
Proof.
  intros p. unfold splice. cbn [to_integer]. fold (splice_start index (length arr)).
  fold p.
  assert (p ≤ length arr)%nat as Hp.
  { subst p. unfold splice_start. case_decide; lia. }
  assert ((if decide (index < 0)
           then Z.max (Z.of_nat (length arr) + index) 0
           else Z.min index (Z.of_nat (length arr))) = Z.of_nat p) as ->.
  { subst p. unfold splice_start. case_decide; lia. }
  destruct (decide (p < length arr)%nat) as [Hlt|Hge].
  - replace (Z.to_nat (Z.min (Z.max 1 0) (Z.of_nat (length arr) - Z.of_nat p)))
      with 1%nat by lia.
    by rewrite delete_take_drop, Nat.add_1_r.
  - replace (Z.to_nat (Z.min (Z.max 1 0) (Z.of_nat (length arr) - Z.of_nat p)))
      with 0%nat by lia.
    rewrite Nat.add_0_r. rewrite delete_take_drop.
    rewrite (drop_ge _ p), (drop_ge _ (S p)) by lia. reflexivity.
Qed.

Lemma head_take_drop {A} (p : nat) (arr : list A) :
  head (take 1 (drop p arr)) = arr !! p.
Proof.
  rewrite head_lookup, lookup_take_lt by lia. by rewrite lookup_drop, Nat.add_0_r.
Qed.

(** [remove_at] in closed form: where [splice] starts decides everything. *)
Lemma remove_at_eq (exit_of : exits) (index : Z) (w : World) :
  remove_at exit_of index w
  = (match _instances w !! splice_start index (length (_instances w)) with
     | None => Abrupt TypeError
     | Some i => if exit_of i then Normal () else Abrupt HandleFailure
     end,
     set_instances
       (λ _, delete (splice_start index (length (_instances w)))
               (_instances w))
       (set_weighted_list None w)).
Proof.
  unfold remove_at. cbn [_instances set_weighted_list].
  rewrite splice_one, head_take_drop.
  by destruct (_ !! _) as [i|]; [destruct (exit_of i)|].
Qed.

(** X6: [remove_at(index)] takes out the instance at [index] when the index
    is within the array; a negative index counts from the end, and one below
    minus the length takes out the first instance.  An index at or past the
    end takes nothing out: the call rejects with a TypeError, the pool keeps
    its instances, and the cache is cleared all the same.  The call rejects
    as well when the handle of the instance taken out fails to exit, the
    instance being out of the pool by then. *)
Theorem remove_at_position (exit_of : exits) (index : Z) (w : World) :
  let l := _instances w in
  let len := Z.of_nat (length l) in
  let p := splice_start index (length l) in
  remove_at exit_of index w
  = (match l !! p with
     | None => Abrupt TypeError
     | Some i => if exit_of i then Normal () else Abrupt HandleFailure
     end,
     set_instances (λ _, delete p l) (set_weighted_list None w))
  ∧ (0 ≤ index < len → p = Z.to_nat index ∧ is_Some (l !! p))
  ∧ (- len ≤ index < 0 → p = Z.to_nat (len + index) ∧ is_Some (l !! p))
  ∧ (index < - len → p = 0%nat)
  ∧ (len ≤ index → l !! p = None ∧ delete p l = l).
Proof.
  intros l len p. split.
  - apply remove_at_eq.
  - subst p len. unfold splice_start.
    split; [|split; [|split]]; intros Hi; case_decide; try lia.
    + split; [lia|]. apply lookup_lt_is_Some. lia.
    + split; [lia|]. apply lookup_lt_is_Some. lia.
    + split; [apply lookup_ge_None; lia|].
      rewrite delete_take_drop, take_ge, drop_ge by lia. by rewrite app_nil_r.
Qed.

(** X7: [remove(n)] takes the first n instances out of the pool, all of them
    when n exceeds their number and none when n is zero or negative, keeps
    the others in order and clears the cache.  It rejects when one of the
    handles taken out fails to exit; the instances are out of the pool even
    then. *)
Theorem remove_prefix (exit_of : exits) (n : Z) (w : World) :
  let l := _instances w in
  let k := Z.to_nat (Z.min (Z.max n 0) (Z.of_nat (length l))) in
  remove exit_of n w
  = (if forallb exit_of (take k l) then Normal () else Abrupt HandleFailure,
     set_instances (λ _, drop k l) (set_weighted_list None w))
  ∧ length (_instances (remove exit_of n w).2) = (length l - k)%nat
  ∧ (n ≤ 0 → _instances (remove exit_of n w).2 = l)
  ∧ (Z.of_nat (length l) ≤ n → _instances (remove exit_of n w).2 = []).
Proof.
  intros l k.
  assert (remove exit_of n w
          = (if forallb exit_of (take k l) then Normal ()
             else Abrupt HandleFailure,
             set_instances (λ _, drop k l) (set_weighted_list None w))) as Hr.
  { unfold remove. cbn [_instances set_weighted_list]. fold l.
    assert (splice (Int 0) (Int n) l = (take k l, drop k l)) as ->.
    { unfold splice. cbn [to_integer]. rewrite decide_False by lia.
      replace (Z.to_nat (Z.min 0 (Z.of_nat (length l)))) with 0%nat by lia.
      replace (Z.min 0 (Z.of_nat (length l))) with 0 by lia.
      rewrite Z.sub_0_r. fold k. by rewrite drop_0, take_0. }
    by destruct (forallb exit_of (take k l)). }
  rewrite Hr. cbn [snd _instances set_instances].
  split; [done|]. split; [by rewrite length_drop|]. split.
  - intros Hn. subst k. replace (Z.to_nat _) with 0%nat by lia. done.
  - intros Hn. subst k. replace (Z.to_nat _) with (length l) by lia.
    by rewrite drop_all.
Qed.

Lemma indexOf_first {A} `{EqDecision A} (x : A) (arr : list A) :
  x ∈ arr →
  ∃ k, indexOf x arr = Z.of_nat k ∧ arr !! k = Some x
       ∧ ∀ j, (j < k)%nat → arr !! j ≠ Some x.
Proof.
  induction arr as [|y arr IH]; [by intros ?%elem_of_nil|].
  intros Hx. simpl. destruct (decide (y = x)) as [->|Hne].
  - exists 0%nat. split; [done|]. split; [done|]. lia.
  - apply elem_of_cons in Hx as [->|Hx]; [done|].
    destruct (IH Hx) as (k & Hk & Hl & Hfirst). exists (S k).
    rewrite Hk. rewrite decide_False by lia. split; [lia|]. split; [done|].
    intros [|j] Hj; simpl; [congruence|]. apply Hfirst. lia.
Qed.

(** X8: [remove_by_name] of a name that an instance carries takes out the
    first instance of that name in pool order and no other, keeps the order of
    the rest, clears the cache, and resolves or rejects as the [exit()] of
    that instance does. *)
Theorem remove_by_name_first (exit_of : exits) (name : string)
    (w : World) (i : TorProcess) :
  instance_by_name w (Some name) = Some i →
  ∃ k,
    _instances w !! k = Some i
    ∧ (∀ j i', (j < k)%nat → _instances w !! j = Some i' →
         instance_name w i' ≠ Some name)
    ∧ remove_by_name exit_of name w
      = (if exit_of i then Normal () else Abrupt HandleFailure,
         set_instances (λ _, delete k (_instances w))
           (set_weighted_list None w))
    ∧ S (length (_instances (remove_by_name exit_of name w).2))
      = length (_instances w).
Proof.
  intros Hfound.
  pose proof Hfound as Hf.
  unfold instance_by_name in Hf.
  apply (head_filter_first (λ i, instance_name w i = Some name)) in Hf
    as (k & Hk & Hname & Hfirst).
  destruct (indexOf_first i (_instances w)) as (k0 & Hidx & Hk0 & Hfirst0).
  { by eapply list_elem_of_lookup_2. }
  assert (k0 = k) as ->.
  { destruct (Nat.lt_trichotomy k0 k) as [Hlt|[?|Hgt]]; [|done|].
    - exfalso. by apply (Hfirst k0 i).
    - exfalso. by apply (Hfirst0 k). }
  exists k. split; [done|]. split; [done|].
  assert (remove_by_name exit_of name w
          = (if exit_of i then Normal () else Abrupt HandleFailure,
             set_instances (λ _, delete k (_instances w))
               (set_weighted_list None w))) as Hr.
  { unfold remove_by_name. rewrite Hfound. unfold instances. rewrite Hidx.
    rewrite remove_at_eq.
    assert (splice_start (Z.of_nat k) (length (_instances w)) = k) as ->.
    { unfold splice_start. apply lookup_lt_Some in Hk.
      rewrite decide_False by lia. lia. }
    by rewrite Hk. }
  split; [done|]. rewrite Hr. cbn [snd _instances set_instances].
  rewrite length_delete by eauto. apply lookup_lt_Some in Hk. lia.
Qed.

Lemma remove_by_name_first_witness :
  let w := Sample.abc "round_robin" in
  ∃ k,
    _instances w !! k = Some Sample.B
    ∧ (∀ j i', (j < k)%nat → _instances w !! j = Some i' →
         instance_name w i' ≠ Some "B")
    ∧ remove_by_name Sample.all_exit "B" w
      = (Normal (),
         set_instances (λ _, delete k (_instances w))
           (set_weighted_list None w))
    ∧ S (length (_instances (remove_by_name Sample.all_exit "B" w).2))
      = length (_instances w).
Proof.
  apply (remove_by_name_first Sample.all_exit "B"
           (Sample.abc "round_robin") Sample.B).
  reflexivity.
Defined.

(** ** What a creation leaves to be found *)

Lemma instance_name_ext (w w' : World) :
  (∀ l, Name <$> definitions w' !! l = Name <$> definitions w !! l) →
  ∀ i, instance_name w' i = instance_name w i.
Proof.
  intros Hn i. unfold instance_name. specialize (Hn (definition i)).
  destruct (definitions w' !! definition i) as [d'|],
    (definitions w !! definition i) as [d|]; simplify_eq/=; [|done].
  by rewrite Hn.
Qed.

Lemma instance_group_ext (w w' : World) :
  (∀ l, Group <$> definitions w' !! l = Group <$> definitions w !! l) →
  ∀ i, instance_group w' i = instance_group w i.
Proof.
  intros Hn i. unfold instance_group. specialize (Hn (definition i)).
  destruct (definitions w' !! definition i) as [d'|],
    (definitions w !! definition i) as [d|]; simplify_eq/=; done.
Qed.

Lemma lookup_alter_with_Config (defs : gmap loc InstanceDefinition)
    (c : option loc) (d l : loc) :
  Name <$> alter (with_Config c) d defs !! l = Name <$> defs !! l
  ∧ Group <$> alter (with_Config c) d defs !! l = Group <$> defs !! l.
Proof.
  destruct (decide (d = l)) as [->|Hne].
  - rewrite lookup_alter_eq. by destruct (defs !! l).
  - by rewrite lookup_alter_ne.
Qed.

Section Found.
Variable path_join : string → string → string.

Lemma merge_config_definitions (d : loc) (def : InstanceDefinition)
    (w : World) :
  definitions (merge_config d def w).2
  = alter (with_Config (Some (merge_config d def w).1)) d (definitions w).
Proof.
  unfold merge_config. rewrite default_tor_config_eq.
  unfold cloneDeep, alloc. by cbn_world.
Qed.

(** What a creation does to the definitions: nothing, or a new [Config] for
    the one it was given. *)
Lemma create_instance_definitions (env : creation) (d : loc) (w : World) :
  definitions (create_instance path_join env d w).2 = definitions w
  ∨ ∃ o, definitions (create_instance path_join env d w).2
         = alter (with_Config (Some o)) d (definitions w).
Proof.
  rewrite create_instance_unfold. cbv zeta. rewrite ensure_data_directory_eq.
  set (w1 := set_directories _ w).
  change (definitions w1) with (definitions w).
  destruct (definitions w !! d) as [def|]; [|by left].
  destruct (name_taken w1 def); [by left|]. right.
  pose proof (merge_config_definitions d def (set_weighted_list None w1)) as Hm.
  destruct (merge_config _ _ _) as [object w2]. cbn [fst snd] in Hm.
  exists object. change (definitions (set_weighted_list None w1))
    with (definitions w) in Hm.
  by destruct (startup_outcome env); cbn_world.
Qed.

Lemma create_instance_labels (env : creation) (d : loc) (w : World)
    (i : TorProcess) :
  instance_name (create_instance path_join env d w).2 i = instance_name w i
  ∧ instance_group (create_instance path_join env d w).2 i
    = instance_group w i.
Proof.
  split; [apply instance_name_ext|apply instance_group_ext]; intros l;
    destruct (create_instance_definitions env d w) as [->|[o ->]];
    try done; apply lookup_alter_with_Config.
Qed.

Lemma name_taken_false (w : World) (def : InstanceDefinition) (n : string) :
  name_taken w def = false → Name def = Some n → n ≠ EmptyString →
  Some n ∉ instance_names w.
Proof.
  unfold name_taken. intros Ht Hn Hne Hin. rewrite Hn in Ht. simpl in Ht.
  rewrite bool_decide_eq_true_2 in Ht by done. simpl in Ht.
  apply bool_decide_eq_false in Ht. apply Ht. by apply indexOf_elem_of.
Qed.

(** X9: a creation that passes the name check and whose handle signals
    [ready] resolves with the new instance, which is then the last of the
    pool, is what [instance_at] returns for the last position and, when the
    definition has a name, what [instance_by_name] returns for that name.  The
    names and the label sets of all instances are what they were. *)
Theorem create_instance_then_found (env : creation) (d : loc)
    (def : InstanceDefinition) (w : World) :
  definitions w !! d = Some def →
  name_taken w def = false →
  startup_outcome env = signals_ready →
  let instance :=
    {| handle := constructed w; id := nanoid env; definition := d |} in
  let r := create_instance path_join env d w in
  r.1 = Normal instance
  ∧ _instances r.2 = _instances w ++ [instance]
  ∧ instance_at r.2 (length (_instances w)) = Some instance
  ∧ instance_name r.2 instance
    = (if truthy_name (Name def) then Name def else None)
  ∧ (∀ n, Name def = Some n → n ≠ EmptyString →
       instance_by_name r.2 (Some n) = Some instance)
  ∧ (∀ i, instance_name r.2 i = instance_name w i
          ∧ instance_group r.2 i = instance_group w i).
Proof.
  intros Hd Hn Ho instance r.
  destruct (create_instance_pool path_join env d def w Hd Hn)
    as (Hr & Hi & _ & _).
  fold instance r in Hr, Hi. rewrite Ho in Hr, Hi.
  assert (instance_name w instance
          = if truthy_name (Name def) then Name def else None) as Hname.
  { unfold instance_name. cbn [definition instance]. by rewrite Hd. }
  split; [done|]. split; [done|]. split.
  { unfold instance_at. rewrite Hi. by rewrite lookup_app_r, Nat.sub_diag. }
  split.
  { subst r. by rewrite (proj1 (create_instance_labels env d w instance)). }
  split; [|intros i; apply create_instance_labels].
  intros n Hsome Hne.
  apply (head_filter_first (λ i, instance_name r.2 i = Some n)).
  exists (length (_instances w)). rewrite Hi.
  split; [by rewrite lookup_app_r, Nat.sub_diag|].
  split.
  { subst r. rewrite (proj1 (create_instance_labels env d w instance)).
    rewrite Hname, Hsome. simpl. by rewrite bool_decide_eq_true_2. }
  intros j i' Hj Hi' Hname'.
  apply (name_taken_false w def n Hn Hsome Hne).
  rewrite lookup_app_l in Hi' by done.
  subst r. rewrite (proj1 (create_instance_labels env d w i')) in Hname'.
  rewrite <- Hname'. unfold instance_names, instances.
  apply list_elem_of_fmap_2. by eapply list_elem_of_lookup_2.
Qed.

(** X10: [instance_created] is emitted exactly when [create_instance]
    resolves: once, for the instance it resolves with, which is then the last
    of the pool and whose handle has signalled [ready].  A call that rejects,
    for whatever reason, emits nothing. *)
Theorem create_instance_notifies_on_success (env : creation) (d : loc)
    (w : World) :
  let r := create_instance path_join env d w in
  match r.1 with
  | Normal i =>
      startup_outcome env = signals_ready
      ∧ emitted r.2 = emitted w ++ [i]
      ∧ _instances r.2 = _instances w ++ [i]
  | Abrupt _ => emitted r.2 = emitted w
  end.
Proof.
  cbv zeta.
  destruct (definitions w !! d) as [def|] eqn:Hd.
  - destruct (name_taken w def) eqn:Hn.
    + rewrite create_instance_unfold. cbv zeta.
      rewrite ensure_data_directory_eq.
      change (definitions (set_directories _ w)) with (definitions w).
      rewrite Hd.
      change (name_taken (set_directories _ w) def) with (name_taken w def).
      by rewrite Hn.
    + destruct (create_instance_pool path_join env d def w Hd Hn)
        as (Hr & Hi & _ & He).
      rewrite Hr, Hi, He. by destruct (startup_outcome env).
  - rewrite create_instance_unfold. cbv zeta.
    rewrite ensure_data_directory_eq.
    change (definitions (set_directories _ w)) with (definitions w).
    by rewrite Hd.
Qed.

End Found.

Lemma create_instance_then_found_witness :
  let w := Sample.abc "round_robin" in
  let instance := {| handle := 3; id := "d"; definition := 4 |} in
  let r := create_instance Sample.path_join Sample.succeeds 4 w in
  r.1 = Normal instance
  ∧ _instances r.2 = [Sample.A; Sample.B; Sample.C; instance]
  ∧ instance_at r.2 3 = Some instance
  ∧ instance_by_name r.2 (Some "D") = Some instance.
Proof.
  destruct (create_instance_then_found Sample.path_join Sample.succeeds 4
              (Sample.def "D" []) (Sample.abc "round_robin"))
    as (Hr & Hi & Hat & _ & Hby & _); [reflexivity..|].
  exact (conj Hr (conj Hi (conj Hat (Hby "D" eq_refl ltac:(done))))).
Defined.

(** ** Names stay unique *)

Lemma sublist_omap {A B} (f : A → option B) (l1 l2 : list A) :
  l1 `sublist_of` l2 → omap f l1 `sublist_of` omap f l2.
Proof.
  induction 1 as [|x l1 l2 _ IH|x l1 l2 _ IH]; simpl.
  - constructor.
  - destruct (f x); [by constructor|done].
  - destruct (f x); [by constructor|done].
Qed.

Lemma take_drop_sublist {A} (s d : nat) (arr : list A) :
  take s arr ++ drop (s + d) arr `sublist_of` arr.
Proof.
  rewrite <- (take_drop s arr) at 3.
  apply sublist_app; [done|]. rewrite <- drop_drop. apply sublist_drop.
Qed.

Lemma splice_sublist {A} (start deleteCount : number) (arr : list A) :
  (splice start deleteCount arr).2 `sublist_of` arr.
Proof. unfold splice. cbn [snd]. apply take_drop_sublist. Qed.

Lemma names_ext (w w' : World) :
  (∀ i, instance_name w' i = instance_name w i) →
  names w' = omap (instance_name w) (_instances w').
Proof.
  intros Hn. unfold names. induction (_instances w') as [|i l IH]; [done|].
  cbn [omap list_omap]. cbn [omap] in IH. by rewrite Hn, IH.
Qed.

Section Names.
Variable path_join : string → string → string.

(** Removal leaves a part of the array, in order, and no definition is
    touched. *)
Lemma removal_sublist (c : call) (w : World) :
  match c with
  | Remove _ _ | RemoveAt _ _ | RemoveByName _ _ | Exit _ => True
  | _ => False
  end →
  _instances (run path_join c w) `sublist_of` _instances w
  ∧ definitions (run path_join c w) = definitions w.
Proof.
  destruct c as [| exit_of n | exit_of index | exit_of name | exit_of
                | | | | |]; try done; intros _; cbn [run].
  - rewrite remove_world. cbn_world. split; [apply splice_sublist|done].
  - unfold remove_at. cbn_world.
    pose proof (splice_sublist (Int index) (Int 1) (_instances w)).
    destruct (splice _ _ _) as [removed rest].
    by destruct (head removed) as [i|]; [destruct (exit_of i)|].
  - unfold remove_by_name. destruct (instance_by_name w _) as [found|]; [|done].
    unfold remove_at. cbn_world.
    pose proof (splice_sublist (Int (indexOf found (instances w))) (Int 1)
                  (_instances w)).
    destruct (splice _ _ _) as [removed rest].
    by destruct (head removed) as [i|]; [destruct (exit_of i)|].
  - unfold exit. destruct (forallb _ _); [|done]. cbn_world.
    split; [apply sublist_nil_l|done].
Qed.

Lemma next_instances (random : list nat) (w : World) :
  cache_current w →
  _instances (next random w).2 ≡ₚ _instances w
  ∧ definitions (next random w).2 = definitions w.
Proof.
  intros Hc. unfold next.
  destruct (decide (load_balance_method w = "round_robin")) as [Hrr|Hrr].
  - unfold round_robin. cbn_world. split; [apply rotate_Permutation|done].
  - destruct (decide (load_balance_method w = "weighted")) as [Hw|Hw]; [|done].
    destruct (next_weighted random w Hw Hc) as (arr & wl & Hn & Ha & _).
    unfold next in Hn. rewrite decide_False, decide_True in Hn by done.
    rewrite Hn. by cbn_world.
Qed.

Lemma run_unique_names (c : call) (w : World) :
  cache_current w → NoDup (names w) → NoDup (names (run path_join c w)).
Proof.
  intros Hc Hnd.
  destruct c as [env instance_definition|exit_of n|exit_of index
                |exit_of name|exit_of|random|group instance|group instance
                |method|value].
  - (* create_instance *)
    cbn [run]. rewrite (names_ext w) by (intros; apply create_instance_labels).
    destruct (definitions w !! instance_definition) as [def|] eqn:Hd.
    + destruct (name_taken w def) eqn:Hn.
      * rewrite create_instance_unfold. cbv zeta.
        rewrite ensure_data_directory_eq.
        change (definitions (set_directories _ w)) with (definitions w).
        rewrite Hd.
        change (name_taken (set_directories _ w) def)
          with (name_taken w def).
        by rewrite Hn.
      * destruct (create_instance_pool path_join env instance_definition
                    def w Hd Hn) as (_ & -> & _ & _).
        destruct (startup_outcome env); [done|..];
          rewrite omap_app; apply NoDup_app; (split; [done|]);
          (split; [|simpl; destruct (instance_name w _);
                     [apply NoDup_singleton|constructor]]);
          intros n Hin; simpl;
          destruct (instance_name w _) as [n'|] eqn:Hname;
          try (by intros ?%elem_of_nil);
          intros ->%list_elem_of_singleton;
          unfold instance_name in Hname; cbn [definition] in Hname;
          rewrite Hd in Hname; simpl in Hname;
          destruct (truthy_name (Name def)) eqn:Ht; try done;
          destruct (Name def) as [m|] eqn:Hm; try done;
          simplify_eq/=; apply bool_decide_eq_true in Ht;
          apply (name_taken_false w def n' Hn Hm Ht);
          apply list_elem_of_omap in Hin as (i & Hi & Hi');
          rewrite <- Hi'; by apply list_elem_of_fmap_2.
    + rewrite create_instance_unfold. cbv zeta.
      rewrite ensure_data_directory_eq.
      change (definitions (set_directories _ w)) with (definitions w).
      by rewrite Hd.
  - destruct (removal_sublist (Remove exit_of n) w I) as [Hs Hdef].
    rewrite (names_ext w)
      by (apply instance_name_ext; intros; by rewrite Hdef).
    exact (sublist_NoDup _ _ Hnd (sublist_omap _ _ _ Hs)).
  - destruct (removal_sublist (RemoveAt exit_of index) w I)
      as [Hs Hdef].
    rewrite (names_ext w)
      by (apply instance_name_ext; intros; by rewrite Hdef).
    exact (sublist_NoDup _ _ Hnd (sublist_omap _ _ _ Hs)).
  - destruct (removal_sublist (RemoveByName exit_of name) w I)
      as [Hs Hdef].
    rewrite (names_ext w)
      by (apply instance_name_ext; intros; by rewrite Hdef).
    exact (sublist_NoDup _ _ Hnd (sublist_omap _ _ _ Hs)).
  - destruct (removal_sublist (Exit exit_of) w I) as [Hs Hdef].
    rewrite (names_ext w)
      by (apply instance_name_ext; intros; by rewrite Hdef).
    exact (sublist_NoDup _ _ Hnd (sublist_omap _ _ _ Hs)).
  - cbn [run]. destruct (next_instances random w Hc) as [Hp Hdef].
    rewrite (names_ext w)
      by (apply instance_name_ext; intros; by rewrite Hdef).
    by rewrite Hp.
  - cbn [run]. rewrite (names_ext w); [done|].
    apply instance_name_ext. intros l. unfold add_instance_to_group.
    cbn_world. destruct (decide (definition instance = l)) as [->|Hne].
    + rewrite lookup_alter_eq. by destruct (definitions w !! l).
    + by rewrite lookup_alter_ne.
  - cbn [run]. rewrite (names_ext w); [done|].
    apply instance_name_ext. intros l. unfold remove_instance_from_group.
    cbn_world. destruct (decide (definition instance = l)) as [->|Hne].
    + rewrite lookup_alter_eq. by destruct (definitions w !! l).
    + by rewrite lookup_alter_ne.
  - done.
  - done.
Qed.

(** X11: in every world the pool can be in through calls made one after the
    other, no two instances of the pool carry the same name: the names of the
    instances that have one are all different. *)
Theorem reachable_unique_names (w : World) :
  reachable path_join w →
  NoDup (names w)
  ∧ ∀ j k i1 i2 n,
      _instances w !! j = Some i1 → _instances w !! k = Some i2 →
      instance_name w i1 = Some n → instance_name w i2 = Some n → j = k.
Proof.
  intros Hr.
  assert (NoDup (names w)) as Hnd.
  { induction Hr as [|c w Hr IH]; [constructor|].
    apply run_unique_names; [by apply (reachable_cache_current path_join)|done]. }
  split; [done|].
  clear Hr. unfold names in Hnd. revert Hnd.
  generalize (_instances w) as l. intros l. induction l as [|i l IH]; [done|].
  intros Hnd j k i1 i2 n Hj Hk H1 H2. simpl in Hnd.
  destruct j as [|j], k as [|k]; simplify_eq/=; [done|..].
  - rewrite H1 in Hnd. apply NoDup_cons in Hnd as [Hnot _]. exfalso.
    apply Hnot. apply list_elem_of_omap. exists i2.
    split; [by eapply list_elem_of_lookup_2|done].
  - rewrite H2 in Hnd. apply NoDup_cons in Hnd as [Hnot _]. exfalso.
    apply Hnot. apply list_elem_of_omap. exists i1.
    split; [by eapply list_elem_of_lookup_2|done].
  - f_equal. apply (IH ltac:(destruct (instance_name w i);
                             [by apply NoDup_cons in Hnd as [_ ?]|done])
                      j k i1 i2 n); done.
Qed.

End Names.

Lemma reachable_unique_names_witness :
  NoDup (names (run Sample.path_join (CreateInstance Sample.succeeds 4)
                  (run Sample.path_join (CreateInstance Sample.succeeds 4)
                     (Sample.empty "weighted")))).
Proof.
  apply (reachable_unique_names Sample.path_join).
  do 2 apply reachable_run. apply reachable_new.
Defined.

(** ** Group views, round trips *)

Lemma elem_of_groups (w : World) (L : string) (i : TorProcess) :
  i ∈ instances_in_group (groups w L)
  ↔ i ∈ _instances w ∧ L ∈ instance_group w i.
Proof.
  rewrite groups_instances, sortBy_Permutation, list_elem_of_filter. tauto.
Qed.

Lemma elem_of_remove {A} `{EqDecision A} (x y : A) (array : list A) :
  y ∈ Lodash.remove (λ z, bool_decide (z = x)) array ↔ y ∈ array ∧ y ≠ x.
Proof.
  unfold Lodash.remove. rewrite !list_elem_of_In, filter_In.
  rewrite negb_true_iff, bool_decide_eq_false. tauto.
Qed.

Lemma remove_instance_from_group_lookup (w : World) (L : string)
    (i : TorProcess) (d : InstanceDefinition) :
  definitions w !! definition i = Some d →
  definitions (remove_instance_from_group L i w) !! definition i
  = Some (with_Group (Lodash.remove (λ g, bool_decide (g = L)) (Group d)) d).
Proof.
  intros Hd. unfold remove_instance_from_group. cbn_world.
  by rewrite lookup_alter_eq, Hd.
Qed.

(** A label written through one instance shows on every instance that shares
    its definition object, and on no other. *)
Lemma add_instance_to_group_other (w : World) (L : string)
    (i i' : TorProcess) :
  definition i' ≠ definition i →
  instance_group (add_instance_to_group L i w) i' = instance_group w i'.
Proof.
  intros Hne. unfold instance_group, add_instance_to_group. cbn_world.
  by rewrite lookup_alter_ne.
Qed.

Lemma remove_instance_from_group_subseteq (w : World) (L L' : string)
    (i i' : TorProcess) :
  L' ∈ instance_group (remove_instance_from_group L i w) i' →
  L' ∈ instance_group w i'.
Proof.
  unfold instance_group, remove_instance_from_group. cbn_world.
  destruct (decide (definition i = definition i')) as [Heq|Hne].
  - rewrite Heq, lookup_alter_eq.
    destruct (definitions w !! definition i') as [d|]; simpl; [|done].
    by intros [? _]%elem_of_remove.
  - by rewrite lookup_alter_ne.
Qed.

(** X12: after [add] through the group view of L, an instance of the pool is
    in the view of L and L is among the group names; the label shows on every
    instance that shares the definition object and the label sets of the
    others are untouched.  After [remove] the instance is out of the view and
    no longer carries L; when it did not carry L before and its label set had
    no duplicate, adding and then removing gives back the label set. *)
Theorem group_add_then_remove (w : World) (L : string) (i : TorProcess) :
  is_Some (definitions w !! definition i) →
  i ∈ _instances w →
  let added := view_add (groups w L) i w in
  let removed := view_remove (groups added L) i added in
  (i ∈ instances_in_group (groups added L))
  ∧ (L ∈ group_names added)
  ∧ (∀ i', definition i' = definition i → L ∈ instance_group added i')
  ∧ (∀ i', definition i' ≠ definition i →
       instance_group added i' = instance_group w i')
  ∧ _instances added = _instances w
  ∧ (i ∉ instances_in_group (groups removed L))
  ∧ (L ∉ instance_group removed i)
  ∧ (L ∉ instance_group w i → NoDup (instance_group w i) →
       instance_group removed i = instance_group w i).
Proof.
  intros [d Hd] Hi added removed.
  assert (added = add_instance_to_group L i w) as Ha by done.
  assert (removed = remove_instance_from_group L i added) as Hr by done.
  pose proof (add_instance_to_group_lookup w L i d Hd) as Hd1.
  rewrite <- Ha in Hd1.
  pose proof (remove_instance_from_group_lookup added L i _ Hd1) as Hd2.
  rewrite <- Hr in Hd2. cbn [Group with_Group] in Hd2.
  assert (∀ i', definition i' = definition i → L ∈ instance_group added i')
    as Hshared.
  { intros i' Heq. unfold instance_group. rewrite Heq, Hd1.
    cbn [Group with_Group]. apply union_singleton_elem_of. }
  assert (L ∉ instance_group removed i) as Hgone.
  { unfold instance_group. rewrite Hd2. cbn [Group with_Group].
    by intros [_ ?]%elem_of_remove. }
  split; [apply elem_of_groups; split; [done|by apply Hshared]|].
  split; [apply elem_of_group_names; exists i; split; [done|by apply Hshared]|].
  split; [done|].
  split; [intros i' Hne; rewrite Ha; by apply add_instance_to_group_other|].
  split; [done|].
  split; [by intros [_ ?]%elem_of_groups|]. split; [done|].
  intros HL Hnd. unfold instance_group at 1. rewrite Hd2.
  cbn [Group with_Group]. rewrite (instance_group_lookup w i d Hd) in *.
  unfold Lodash.union, Lodash.uniq.
  rewrite uniq_from_id; cycle 1.
  { apply NoDup_app. split; [done|]. split; [|apply NoDup_singleton].
    intros x Hx ->%list_elem_of_singleton. done. }
  { intros x _ ?%elem_of_nil. done. }
  unfold Lodash.remove. rewrite List.filter_app. simpl.
  rewrite bool_decide_eq_true_2 by done. simpl. rewrite app_nil_r.
  by apply remove_absent.
Qed.

Lemma group_add_then_remove_witness :
  let w := Sample.abc "round_robin" in
  let added := view_add (groups w "h") Sample.B w in
  let removed := view_remove (groups added "h") Sample.B added in
  (Sample.B ∈ instances_in_group (groups added "h"))
  ∧ (Sample.B ∉ instances_in_group (groups removed "h"))
  ∧ instance_group removed Sample.B = instance_group w Sample.B.
Proof.
  destruct (group_add_then_remove (Sample.abc "round_robin") "h" Sample.B)
    as (Hin & _ & _ & _ & _ & Hout & _ & Hback).
  - by eexists.
  - compute_done.
  - refine (conj Hin (conj Hout (Hback _ _))); compute_done.
Defined.

(** X13: [remove_at] of a group view addresses the view, sorted by name, not
    the pool: it takes the label off the instance at that position of the
    view, which is then in no later view of the label, and a later view holds
    no instance that the view did not hold.  Past the end of the view it
    throws a TypeError and changes nothing. *)
Theorem view_remove_at_position (w : World) (L : string) (k : nat) :
  let view := groups w L in
  let r := view_remove_at view k w in
  match instances_in_group view !! k with
  | Some i =>
      r = (Normal (), remove_instance_from_group L i w)
      ∧ (i ∈ _instances w)
      ∧ (i ∉ instances_in_group (groups r.2 L))
      ∧ ∀ i', i' ∈ instances_in_group (groups r.2 L) →
          i' ∈ instances_in_group view
  | None => r = (Abrupt TypeError, w) ∧ (length (instances_in_group view) ≤ k)%nat
  end.
Proof.
  intros view r. subst r. unfold view_remove_at.
  change (group_name view) with L.
  destruct (instances_in_group view !! k) as [i|] eqn:Hk.
  - assert (i ∈ instances_in_group view) as Hin
      by by eapply list_elem_of_lookup_2.
    apply elem_of_groups in Hin as [Hi HL].
    assert (is_Some (definitions w !! definition i)) as [d Hd].
    { unfold instance_group in HL.
      destruct (definitions w !! definition i); [eauto|].
      by apply elem_of_nil in HL. }
    split; [done|]. split; [done|]. cbn [snd]. split.
    + intros [_ Hmem]%elem_of_groups. unfold instance_group in Hmem.
      rewrite (remove_instance_from_group_lookup w L i d Hd) in Hmem.
      cbn [Group with_Group] in Hmem. by apply elem_of_remove in Hmem as [_ ?].
    + intros i' [Hi' Hmem]%elem_of_groups. apply elem_of_groups.
      split; [done|]. by eapply remove_instance_from_group_subseteq.
  - split; [done|]. by apply lookup_ge_None.
Qed.

(** ** The default configuration and the weighted cache *)

(** Two reads of [default_tor_config] in a row: two new objects holding what
    the default holds, and no object that was there is written to. *)
Lemma default_tor_config_twice (w : World) :
  default_allocated w →
  let first := default_tor_config w in
  let second := default_tor_config first.2 in
  configs w !! first.1 = None
  ∧ configs first.2 !! first.1 = Some (default_content w)
  ∧ second.1 ≠ first.1
  ∧ configs second.2 !! second.1 = Some (default_content w)
  ∧ configs second.2 !! first.1 = Some (default_content w)
  ∧ (∀ l, is_Some (configs w !! l) → configs second.2 !! l = configs w !! l)
  ∧ _default_tor_config second.2 = _default_tor_config w
  ∧ configs first.2 !! second.1 = None
  ∧ (∀ l, is_Some (configs w !! l) → configs first.2 !! l = configs w !! l).
Proof.
  intros Halloc first second.
  set (w1 := set_configs
               (λ _, <[default_copy w := default_content w]> (configs w)) w).
  assert (first = (default_copy w, w1)) as Hfirst
    by apply default_tor_config_eq.
  assert (second
          = (default_copy w1,
             set_configs
               (λ _, <[default_copy w1 := default_content w1]> (configs w1))
               w1)) as Hsecond.
  { subst second. rewrite Hfirst. apply default_tor_config_eq. }
  rewrite Hsecond, Hfirst. cbn_world.
  pose proof (default_copy_fresh w) as Hf.
  pose proof (default_copy_fresh w1) as Hf1.
  assert (configs w1 = <[default_copy w := default_content w]> (configs w))
    as Hw1 by done.
  assert (default_content w1 = default_content w) as Hc.
  { unfold default_content, default_allocated in *. subst w1. cbn_world.
    destruct (_default_tor_config w) as [|l|]; [done| |done].
    destruct Halloc as [o Ho]. rewrite lookup_insert_ne; [done|].
    intros <-. congruence. }
  assert (default_copy w1 ≠ default_copy w) as Hne.
  { intros Heq. rewrite Heq, Hw1, lookup_insert_eq in Hf1. done. }
  split; [done|]. split; [by rewrite Hw1, lookup_insert_eq|]. split; [done|].
  rewrite Hc.
  split; [by rewrite lookup_insert_eq|].
  split; [by rewrite lookup_insert_ne, Hw1, lookup_insert_eq|].
  split.
  { intros l [o Ho].
    assert (default_copy w ≠ l) as Hl by (intros <-; congruence).
    assert (default_copy w1 ≠ l) as Hl1.
    { intros <-. rewrite Hw1, lookup_insert_ne in Hf1 by done. congruence. }
    by rewrite lookup_insert_ne, Hw1, lookup_insert_ne. }
  split; [done|]. split; [done|].
  intros l [o Ho].
  assert (default_copy w ≠ l) as Hl by (intros <-; congruence).
  by rewrite Hw1, lookup_insert_ne.
Qed.

(** X14: with an object as the default configuration, every read of
    [default_tor_config] hands out a copy and never the default itself: two
    reads in a row give two different new objects, both holding what the
    default holds, and the default, like every other object that was there,
    is left as it was. *)
Theorem default_tor_config_copy (w : World) (l : loc) (o : config_object) :
  _default_tor_config w = StaticDefault l →
  configs w !! l = Some o →
  let first := default_tor_config w in
  let second := default_tor_config first.2 in
  first.1 ≠ l
  ∧ second.1 ≠ l
  ∧ second.1 ≠ first.1
  ∧ configs w !! first.1 = None
  ∧ configs second.2 !! first.1 = Some o
  ∧ configs second.2 !! second.1 = Some o
  ∧ (∀ l', is_Some (configs w !! l') →
       configs second.2 !! l' = configs w !! l')
  ∧ _default_tor_config second.2 = StaticDefault l.
Proof.
  intros Hd Ho. cbv zeta.
  destruct (default_tor_config_twice w)
    as (Hnew & _ & Hne & Hsecond & Hfirst & Hkept & Hdefault & Hnew' & Hkept').
  { unfold default_allocated. rewrite Hd. by eexists. }
  assert (default_content w = o) as Hc.
  { unfold default_content. by rewrite Hd, Ho. }
  rewrite Hc in Hsecond, Hfirst.
  split; [intros Heq; rewrite Heq in Hnew; congruence|].
  split.
  { intros Heq. rewrite Heq, Hkept' in Hnew' by by eexists. congruence. }
  by rewrite Hdefault.
Qed.

Lemma default_tor_config_copy_witness :
  let w := Sample.abc "round_robin" in
  let first := default_tor_config w in
  let second := default_tor_config first.2 in
  first.1 ≠ 1%positive
  ∧ second.1 ≠ first.1
  ∧ configs second.2 !! first.1 = Some {[ "Log" := JStr "notice stdout" ]}
  ∧ configs second.2 !! second.1 = Some {[ "Log" := JStr "notice stdout" ]}
  ∧ configs second.2 !! 1%positive = Some {[ "Log" := JStr "notice stdout" ]}.
Proof.
  destruct (default_tor_config_copy (Sample.abc "round_robin") 1
              {[ "Log" := JStr "notice stdout" ]})
    as (H1 & _ & H3 & _ & H5 & H6 & H7 & _); [reflexivity..|].
  refine (conj H1 (conj H3 (conj H5 (conj H6 _)))).
  rewrite H7; [reflexivity|by eexists].
Defined.




(** ** Exit *)

Lemma group_names_nil (w : World) : _instances w = [] → group_names w = [].
Proof. intros Hi. unfold group_names, instances. by rewrite Hi. Qed.

(** X16: [exit()] is all or nothing for the pool.  When a handle fails to
    exit the call rejects and the pool keeps all its instances, those whose
    handle did exit included, and its cache.  When every handle exits the
    pool is empty and has no cache: no names, no group names, every group
    view empty, [next()] under round_robin returns undefined, and
    [remove_by_name] rejects whatever the name. *)
Theorem exit_all_or_nothing (exit_of : exits) (w : World) :
  (forallb exit_of (_instances w) = false →
     exit exit_of w = (Abrupt HandleFailure, w))
  ∧ (forallb exit_of (_instances w) = true →
     let after := (exit exit_of w).2 in
     (exit exit_of w).1 = Normal ()
     ∧ _instances after = []
     ∧ _weighted_list after = None
     ∧ instance_names after = []
     ∧ group_names after = []
     ∧ (∀ L, instances_in_group (groups after L) = [])
     ∧ (∀ random,
          load_balance_method w = "round_robin" →
          (next random after).1 = Normal None
          ∧ _instances (next random after).2 = [])
     ∧ (∀ name,
          remove_by_name exit_of name after
          = (Abrupt (ReferenceError "name"), after))).
Proof.
  split; intros Hall; unfold exit; rewrite Hall; [done|]. cbn [fst snd].
  set (after := set_weighted_list None (set_instances (λ _, []) w)).
  assert (_instances after = []) as Hi by done.
  split; [done|]. split; [done|]. split; [done|].
  split; [unfold instance_names, instances; by rewrite Hi|].
  split; [by apply group_names_nil|].
  split; [intros L; rewrite groups_instances, Hi; done|].
  split.
  - intros random Hm. unfold next.
    change (load_balance_method after) with (load_balance_method w).
    rewrite Hm, decide_True by done. unfold round_robin. cbn_world.
    by rewrite Hi, rotate_nil.
  - intros name. apply remove_by_name_unknown.
    unfold instance_names, instances. rewrite Hi. by intros ?%elem_of_nil.
Qed.

Lemma exit_all_or_nothing_witness :
  let w := Sample.abc "round_robin" in
  exit (λ i, bool_decide (i ≠ Sample.B)) w = (Abrupt HandleFailure, w)
  ∧ _instances (exit Sample.all_exit w).2 = []
  ∧ (next [] (exit Sample.all_exit w).2).1 = Normal None.
Proof.
  destruct (exit_all_or_nothing (λ i, bool_decide (i ≠ Sample.B))
              (Sample.abc "round_robin")) as [Hfail _].
  destruct (exit_all_or_nothing Sample.all_exit (Sample.abc "round_robin"))
    as [_ Hall].
  destruct Hall as (_ & Hempty & _ & _ & _ & _ & Hnext & _); [reflexivity|].
  exact (conj (Hfail eq_refl) (conj Hempty (proj1 (Hnext [] eq_refl)))).
Defined.

(** ** A retained [groups] object *)

(** X17: the object returned by [pool.groups] keeps the group names of the
    moment it was obtained.  Read later, it gives an empty view for a label
    that was not in use then, even for a label added since, while a fresh
    [pool.groups] shows the instance; for a label that was in use then, it
    gives the view of the pool as it is at the time of the read. *)
Theorem retained_groups_labels (w w' : World) (L : string) :
  (L ∉ group_names w →
     instances_in_group (groups_get w' (group_names w) L) = [])
  ∧ (L ∈ group_names w →
       instances_in_group (groups_get w' (group_names w) L)
       = instances_in_group (groups w' L))
  ∧ (L ∉ group_names w → ∀ i,
       is_Some (definitions w !! definition i) → i ∈ _instances w →
       let added := add_instance_to_group L i w in
       instances_in_group (groups_get added (group_names w) L) = []
       ∧ i ∈ instances_in_group (groups added L)).
Proof.
  assert (L ∉ group_names w →
          ∀ w'', instances_in_group (groups_get w'' (group_names w) L) = [])
    as Hstale.
  { intros HL w''. unfold groups_get. cbn [instances_in_group].
    by rewrite decide_False. }
  split; [intros HL; by apply Hstale|]. split.
  - intros HL. rewrite groups_instances. unfold groups_get.
    cbn [instances_in_group]. rewrite decide_True by done. f_equal.
    apply list_filter_iff. intros i. apply indexOf_elem_of.
  - intros HL i [d Hd] Hi added. split; [by apply Hstale|].
    apply elem_of_groups. split; [done|].
    unfold instance_group. subst added.
    rewrite (add_instance_to_group_lookup w L i d Hd).
    cbn [Group with_Group]. apply union_singleton_elem_of.
Qed.

Lemma retained_groups_labels_witness :
  let w := Sample.abc "round_robin" in
  let added := add_instance_to_group "k" Sample.B w in
  instances_in_group (groups_get added (group_names w) "k") = []
  ∧ Sample.B ∈ instances_in_group (groups added "k").
Proof.
  destruct (retained_groups_labels (Sample.abc "round_robin")
              (Sample.abc "round_robin") "k") as (_ & _ & Hstale).
  apply (Hstale ltac:(compute_done) Sample.B); [by eexists|compute_done].
Defined.

(** ** Creations under way at the same time *)

Section Overlap.
Variable path_join : string → string → string.

Lemma create_instance_start_passed (env : creation) (d : loc)
    (def : InstanceDefinition) (w : World) :
  definitions w !! d = Some def →
  name_taken w def = false →
  let s := create_instance_start path_join env d w in
  s.1 = match startup_outcome env with
        | create_rejects => Abrupt HandleFailure
        | _ => Normal {| handle := constructed w; id := nanoid env;
                         definition := d |}
        end
  ∧ _instances s.2 = _instances w
  ∧ constructed s.2 = S (constructed w)
  ∧ ∃ o, definitions s.2 = alter (with_Config (Some o)) d (definitions w).
Proof.
  intros Hd Hn. cbv zeta. unfold create_instance_start.
  rewrite ensure_data_directory_eq.
  set (w1 := set_directories _ w).
  change (definitions w1) with (definitions w). rewrite Hd.
  change (name_taken w1 def) with (name_taken w def). rewrite Hn.
  pose proof (merge_config_definitions d def (set_weighted_list None w1)) as Hm.
  pose proof (merge_config_frame d def (set_weighted_list None w1))
    as (Hi & _ & Hc & _).
  destruct (merge_config _ _ _) as [object w2]. cbn [fst snd] in *.
  change (definitions (set_weighted_list None w1)) with (definitions w) in Hm.
  change (_instances (set_weighted_list None w1)) with (_instances w) in Hi.
  change (constructed (set_weighted_list None w1)) with (constructed w) in Hc.
  destruct (startup_outcome env); cbn_world; rewrite Hc;
    (split; [done|]); (split; [done|]); (split; [done|]); eauto.
Qed.

(** X18: the name check sees the instances already pushed, not the creations
    under way.  With the base directory in place, two creations for two
    definitions of the same free name that are both started before either is
    pushed (as [add] starts them) both pass the check, and once both are
    pushed the pool holds two different instances of that name. *)
Theorem overlapping_creations_share_a_name (env1 env2 : creation)
    (d1 d2 : loc) (def1 def2 : InstanceDefinition) (n : string)
    (w : World) :
  data_directory w ∈ directories w →
  definitions w !! d1 = Some def1 →
  definitions w !! d2 = Some def2 →
  d1 ≠ d2 →
  Name def1 = Some n → Name def2 = Some n → n ≠ EmptyString →
  Some n ∉ instance_names w →
  startup_outcome env1 ≠ create_rejects →
  startup_outcome env2 ≠ create_rejects →
  let i1 := {| handle := constructed w; id := nanoid env1; definition := d1 |} in
  let i2 :=
    {| handle := S (constructed w); id := nanoid env2; definition := d2 |} in
  let started1 := create_instance_start path_join env1 d1 w in
  let started2 := create_instance_start path_join env2 d2 started1.2 in
  let finished1 := create_instance_finish env1 i1 started2.2 in
  let finished2 := create_instance_finish env2 i2 finished1.2 in
  started1.1 = Normal i1
  ∧ started2.1 = Normal i2
  ∧ _instances finished2.2 = _instances w ++ [i1; i2]
  ∧ instance_name finished2.2 i1 = Some n
  ∧ instance_name finished2.2 i2 = Some n
  ∧ i1 ≠ i2.
Proof.
  intros _ Hd1 Hd2 Hne Hn1 Hn2 Hn Hfree Ho1 Ho2 i1 i2 started1 started2
    finished1 finished2.
  assert (∀ w' def, Name def = Some n →
            instance_names w' = instance_names w →
            name_taken w' def = false) as Hfree'.
  { intros w' def Hname Hnames. unfold name_taken. rewrite Hnames, Hname.
    apply andb_false_iff. right. apply bool_decide_eq_false.
    intros Hidx. by apply Hfree, indexOf_elem_of. }
  destruct (create_instance_start_passed env1 d1 def1 w Hd1)
    as (Hr1 & Hi1 & Hc1 & o1 & Hdef1); [by apply Hfree'|].
  fold started1 in Hr1, Hi1, Hc1, Hdef1.
  assert (∀ i, instance_name started1.2 i = instance_name w i) as Hnames1.
  { apply instance_name_ext. intros l. rewrite Hdef1.
    apply lookup_alter_with_Config. }
  assert (definitions started1.2 !! d2 = Some def2) as Hd2'.
  { by rewrite Hdef1, lookup_alter_ne. }
  destruct (create_instance_start_passed env2 d2 def2 started1.2 Hd2')
    as (Hr2 & Hi2 & Hc2 & o2 & Hdef2).
  { apply Hfree'; [done|]. unfold instance_names, instances. rewrite Hi1.
    apply list_fmap_ext. intros ? i ?. apply Hnames1. }
  fold started2 in Hr2, Hi2, Hc2, Hdef2. rewrite Hc1 in Hr2.
  assert (started1.1 = Normal i1) as Hs1
    by (rewrite Hr1; by destruct (startup_outcome env1)).
  assert (started2.1 = Normal i2) as Hs2
    by (rewrite Hr2; by destruct (startup_outcome env2)).
  assert (definitions finished2.2 = definitions started2.2) as Hdeff.
  { subst finished2 finished1. unfold create_instance_finish.
    by destruct (startup_outcome env1), (startup_outcome env2). }
  assert (_instances finished2.2 = _instances w ++ [i1; i2]) as Hif.
  { subst finished2 finished1. unfold create_instance_finish.
    destruct (startup_outcome env1), (startup_outcome env2); cbn_world;
      rewrite Hi2, Hi1, <- app_assoc; done. }
  split; [done|]. split; [done|]. split; [done|].
  assert (∀ d def, definitions w !! d = Some def → Name def = Some n →
            ∀ i, definition i = d → instance_name finished2.2 i = Some n)
    as Hnamed.
  { intros d def Hd Hname i Hi. unfold instance_name.
    rewrite Hdeff, Hdef2, Hdef1, Hi.
    destruct (lookup_alter_with_Config
                (alter (with_Config (Some o1)) d1 (definitions w))
                (Some o2) d2 d) as [Hx _].
    destruct (lookup_alter_with_Config (definitions w) (Some o1) d1 d)
      as [Hy _].
    rewrite Hy, Hd in Hx. simpl in Hx.
    destruct (alter _ d2 _ !! d) as [def'|]; [|done]. simpl in *.
    injection Hx as ->. rewrite Hname. simpl.
    by rewrite bool_decide_eq_true_2. }
  split; [by apply (Hnamed d1 def1)|]. split; [by apply (Hnamed d2 def2)|].
  subst i1 i2. intros [= ? _ _]. lia.
Qed.

End Overlap.

Lemma overlapping_creations_share_a_name_witness :
  let w := Twins.world in
  let i1 := {| handle := 3; id := "d1"; definition := 4 |} in
  let i2 := {| handle := 4; id := "d2"; definition := 6 |} in
  let started1 := create_instance_start Sample.path_join Twins.first 4 w in
  let started2 :=
    create_instance_start Sample.path_join Twins.second 6 started1.2 in
  let finished1 := create_instance_finish Twins.first i1 started2.2 in
  let finished2 := create_instance_finish Twins.second i2 finished1.2 in
  started1.1 = Normal i1
  ∧ started2.1 = Normal i2
  ∧ _instances finished2.2 = [Sample.A; Sample.B; Sample.C; i1; i2]
  ∧ instance_name finished2.2 i1 = Some "D"
  ∧ instance_name finished2.2 i2 = Some "D"
  ∧ i1 ≠ i2.
Proof.
  apply (overlapping_creations_share_a_name Sample.path_join Twins.first
           Twins.second 4 6 (Sample.def "D" []) (Sample.def "D" ["g"]) "D"
           Twins.world); try reflexivity; try done; compute_done.
Defined.
